(** * Numerical quadrature: rectangle, trapezoidal and Simpson rules

    Two shallow embeddings of [src/lab1/calc_methods_integral.py] and the
    properties its specification states about it.

    The exact embedding, first in the file, idealises a float as an exact
    rational ([Qc], the canonical rationals, whose equality is Leibniz
    equality): it has no rounding, no infinity, no NaN and no overflow, and
    is the model of the statements made over exact arithmetic, that is, of
    what the formulas of the three methods compute when nothing is rounded.

    The binary64 embedding, module [Binary64] further down, computes on
    doubles with Python's rules for converting an int, for dividing by zero
    and for overflow: it is the model of what a call returns, raises and
    calls the integrand on.

    In both, the partition count [n] and the loop index [i] are Python
    [int]s and are modelled as [Z].

    Effects.  A call of [integrate] can raise, it calls the integrand (a
    Python callable) and, in mode "random", it draws from numpy's process-wide
    random source.  All three are explicit: a computation is a function from
    a [world] to an [outcome] and the next [world]; the world records the
    arguments the integrand has been called on, in call order, and the
    number of draws taken from the random source. *)

From Stdlib Require Import ZArith QArith Qcanon Field Lia Lqa.
From Stdlib Require PrimFloat SpecFloat FloatOps.
From stdpp Require Import base decidable numbers list list_numbers strings.

Local Open Scope Z_scope.
Local Open Scope Qc_scope.

(** ** Exceptions, outcomes and the world *)

Inductive exn : Type :=
  | AssertionError
  | ValueError (msg : string)
  | ZeroDivisionError.

Inductive outcome (A : Type) : Type :=
  | Return (v : A)
  | Raise (e : exn).
Arguments Return {A} v.
Arguments Raise {A} e.

Record world : Type := World {
  calls : list Qc;   (* arguments the integrand was called on, oldest first *)
  drawn : nat        (* draws taken from the random source so far *)
}.

Definition M (A : Type) : Type := world -> outcome A * world.

Definition ret {A} (v : A) : M A := fun w => (Return v, w).

Definition raise {A} (e : exn) : M A := fun w => (Raise e, w).

Definition bind {A B} (c : M A) (k : A -> M B) : M B :=
  fun w =>
    match c w with
    | (Return v, w') => k v w'
    | (Raise e, w') => (Raise e, w')
    end.

Notation "x <- c ;; k" := (bind c (fun x => k))
  (at level 100, c at next level, right associativity).

(** ** The Python operations the three methods use *)

(** [x / n] for a float [x] and an int [n]: true division, which raises
    [ZeroDivisionError] when the divisor is zero. *)
Definition truediv (x : Qc) (n : Z) : M Qc :=
  if decide (n = 0%Z) then raise ZeroDivisionError else ret (x / Qc_of_Z n).

(** [f(x)]: the integrand is applied and the call is recorded. *)
Definition call (f : Qc -> Qc) (x : Qc) : M Qc :=
  fun w => (Return (f x), World (calls w ++ [x]) (drawn w)).

(** [range(lo, hi)]: empty when [hi <= lo]. *)
Definition range (lo hi : Z) : list Z := seqZ lo (hi - lo).

(** [for i in l: total = body(i, total)], returning the last [total]. *)
Fixpoint for_range (l : list Z) (body : Z -> Qc -> M Qc) (total : Qc) : M Qc :=
  match l with
  | [] => ret total
  | i :: l' => t <- body i total ;; for_range l' body t
  end.

(** The float literal [0.5]. *)
Definition half : Qc := Q2Qc (1 # 2).

Section Quadrature.

(** [np.random.uniform]: the value of the [k]-th draw of the process for the
    bounds it is asked for.  Nothing is assumed about it. *)
Variable uniform : nat -> Qc -> Qc -> Qc.

Definition np_random_uniform (lo hi : Qc) : M Qc :=
  fun w => (Return (uniform (drawn w) lo hi), World (calls w) (S (drawn w))).

(** ** RectangleMethod *)

Record RectangleMethod : Type := { mode : string }.

Definition modes : list string := ["left"; "right"; "mid"; "random"].

(** [RectangleMethod.__init__]: [assert mode in (...)], then [self.mode = mode]. *)
Definition RectangleMethod_init (mode : string) : M RectangleMethod :=
  if bool_decide (mode ∈ modes) then ret {| mode := mode |}
  else raise AssertionError.

(** [RectangleMethod()]: the mode defaults to "left". *)
Definition RectangleMethod_default : M RectangleMethod :=
  RectangleMethod_init "left".

(** The evaluation point of the subinterval that starts at [x0]. *)
Definition rectangle_point (self : RectangleMethod) (x0 dx : Qc) : M Qc :=
  let x1 := x0 + dx in
  if String.eqb (mode self) "left" then ret x0
  else if String.eqb (mode self) "right" then ret x1
  else if String.eqb (mode self) "mid" then ret ((x0 + x1) / Qc_of_Z 2)
  else np_random_uniform x0 x1.

Definition RectangleMethod_integrate
    (self : RectangleMethod) (a b : Qc) (n : Z) (f : Qc -> Qc) : M Qc :=
  dx <- truediv (b - a) n ;;
  for_range (range 0 n)
    (fun i total =>
       let x0 := a + Qc_of_Z i * dx in
       xi <- rectangle_point self x0 dx ;;
       y <- call f xi ;;
       ret (total + y * dx))
    0.

(** ** TrapezoidalMethod *)

Definition TrapezoidalMethod_integrate
    (a b : Qc) (n : Z) (f : Qc -> Qc) : M Qc :=
  dx <- truediv (b - a) n ;;
  fa <- call f a ;;
  fb <- call f b ;;
  total <- for_range (range 1 n)
             (fun i total => y <- call f (a + Qc_of_Z i * dx) ;; ret (total + y))
             (half * (fa + fb)) ;;
  ret (total * dx).

(** ** SimpsonMethod *)

Definition Simpson_msg : string := "For the Simpson method, n must be even".

Definition SimpsonMethod_integrate
    (a b : Qc) (n : Z) (f : Qc -> Qc) : M Qc :=
  if negb (n `mod` 2 =? 0)%Z then raise (ValueError Simpson_msg)
  else
    dx <- truediv (b - a) n ;;
    fa <- call f a ;;
    fb <- call f b ;;
    total <- for_range (range 1 n)
               (fun i total =>
                  let coef := if negb (i `mod` 2 =? 0)%Z then 4%Z else 2%Z in
                  y <- call f (a + Qc_of_Z i * dx) ;;
                  ret (total + Qc_of_Z coef * y))
               (fa + fb) ;;
    ret (total * dx / Qc_of_Z 3).

End Quadrature.

(** ** The formulas of the specification

    Written from the specification's words, to be compared with what the
    loops compute. *)

(** The sum of a list of numbers, and [Sigma lo hi g], the sum of [g i] over
    [i = lo .. hi] (both bounds included; empty when [hi < lo]). *)
Definition sumQc (l : list Qc) : Qc := foldr Qcplus 0 l.

Definition Sigma (lo hi : Z) (g : Z -> Qc) : Qc :=
  sumQc (g <$> seqZ lo (hi - lo + 1)).

(** The evaluation point of the subinterval [[x0, x1]] for a mode. *)
Definition spec_point (m : string) (x0 x1 : Qc) : Qc :=
  if decide (m = "left") then x0
  else if decide (m = "right") then x1
  else (x0 + x1) / Qc_of_Z 2.

Definition Rectangle_spec (m : string) (a b : Qc) (n : Z) (f : Qc -> Qc) : Qc :=
  let dx := (b - a) / Qc_of_Z n in
  Sigma 0 (n - 1)
    (fun i => f (spec_point m (a + Qc_of_Z i * dx) (a + Qc_of_Z (i + 1) * dx)) * dx).

Definition Trapezoidal_spec (a b : Qc) (n : Z) (f : Qc -> Qc) : Qc :=
  let dx := (b - a) / Qc_of_Z n in
  (half * (f a + f b) + Sigma 1 (n - 1) (fun i => f (a + Qc_of_Z i * dx))) * dx.

Definition spec_coef (i : Z) : Qc :=
  if Z.odd i then Qc_of_Z 4 else Qc_of_Z 2.

Definition Simpson_spec (a b : Qc) (n : Z) (f : Qc -> Qc) : Qc :=
  let dx := (b - a) / Qc_of_Z n in
  (f a + f b + Sigma 1 (n - 1) (fun i => spec_coef i * f (a + Qc_of_Z i * dx)))
  * dx / Qc_of_Z 3.

(** The exact integral of [x |-> p * x + q] over [[a, b]]. *)
Definition linear_integral (p q a b : Qc) : Qc :=
  p * (b * b - a * a) / Qc_of_Z 2 + q * (b - a).

(** ** Concrete inputs used by the examples *)

Definition w0 : world := World [] 0.

(** A random source that always answers with the lower bound. *)
Definition u0 : nat -> Qc -> Qc -> Qc := fun _ lo _ => lo.

(** An integrand for the examples: [x |-> x * x + 1]. *)
Definition sq_plus_one (x : Qc) : Qc := x * x + 1.

Definition cube (x : Qc) : Qc := x * x * x.

(** The value a computation returned, as a plain fraction, for evaluation. *)
Definition returned (r : outcome Qc * world) : option Q :=
  match r.1 with Return v => Some (this v) | Raise _ => None end.

Definition raised {A} (r : outcome A * world) : option exn :=
  match r.1 with Return _ => None | Raise e => Some e end.

(** ** Vocabulary of the statements *)

(** The world after the integrand has been called on [pts], in order. *)
Definition logged (pts : list Qc) (w : world) : world :=
  World (calls w ++ pts) (drawn w).

(** A computation returns when its outcome is a value. *)
Definition returns {A} (r : outcome A * world) : Prop := exists v, r.1 = Return v.

(** [negates r1 r2]: both computations return, and the value of [r1] is the
    opposite of the value of [r2]. *)
Definition negates (r1 r2 : outcome Qc * world) : Prop :=
  exists v, r2.1 = Return v /\ r1.1 = Return (- v).

(** The modes whose evaluation point does not come from the random source. *)
Definition deterministic : list string := ["left"; "right"; "mid"].

(** Reversing the bounds turns left endpoints into right endpoints and keeps
    midpoints. *)
Definition mirror (m : string) : string :=
  if String.eqb m "left" then "right"
  else if String.eqb m "right" then "left"
  else m.

(** ** The loop bodies in closed form *)

(** The point [rectangle_point] selects in a deterministic mode. *)
Definition code_point (m : string) (x0 dx : Qc) : Qc :=
  if String.eqb m "left" then x0
  else if String.eqb m "right" then x0 + dx
  else (x0 + (x0 + dx)) / Qc_of_Z 2.

(** The coefficient the Simpson loop uses at index [i]. *)
Definition code_coef (i : Z) : Z := if negb (i `mod` 2 =? 0)%Z then 4%Z else 2%Z.

(** The points the trapezoidal and Simpson methods call the integrand on, in
    call order. *)
Definition trapezoid_points (a b : Qc) (n : Z) : list Qc :=
  let dx := (b - a) / Qc_of_Z n in
  [a; b] ++ ((fun i => a + Qc_of_Z i * dx) <$> range 1 n).

(** ** Generic facts: the monad, sums and the accumulation loop *)

Lemma logged_nil w : logged [] w = w.
Proof. destruct w; unfold logged; simpl. by rewrite app_nil_r. Qed.

Lemma logged_logged p1 p2 w : logged p2 (logged p1 w) = logged (p1 ++ p2) w.
Proof. unfold logged; simpl. by rewrite app_assoc. Qed.

Lemma call_run f x w : call f x w = (Return (f x), logged [x] w).
Proof. reflexivity. Qed.

Lemma bind_Return {A B} (c : M A) (k : A -> M B) w v w' :
  c w = (Return v, w') -> bind c k w = k v w'.
Proof. unfold bind. by intros ->. Qed.

Lemma bind_Raise {A B} (c : M A) (k : A -> M B) w e w' :
  c w = (Raise e, w') -> bind c k w = (Raise e, w').
Proof. unfold bind. by intros ->. Qed.

Lemma truediv_zero x w : truediv x 0 w = (Raise ZeroDivisionError, w).
Proof. reflexivity. Qed.

Lemma truediv_nonzero x n w :
  n ≠ 0%Z -> truediv x n w = (Return (x / Qc_of_Z n), w).
Proof. intros Hn. unfold truediv. by rewrite decide_False. Qed.

Lemma Qc_of_Z_nonzero n : n ≠ 0%Z -> Qc_of_Z n ≠ 0.
Proof. rewrite <- Z2Qc_inj_0. intros Hn H. by apply Hn, Z2Qc_inj. Qed.

Lemma sumQc_cons x l : sumQc (x :: l) = x + sumQc l.
Proof. reflexivity. Qed.

Lemma sumQc_app l1 l2 : sumQc (l1 ++ l2) = sumQc l1 + sumQc l2.
Proof.
  induction l1 as [|x l1 IH].
  - symmetry. apply Qcplus_0_l.
  - rewrite <- app_comm_cons, !sumQc_cons, IH. apply Qcplus_assoc.
Qed.

Lemma sumQc_ext {A} (g h : A -> Qc) (l : list A) :
  (forall i, i ∈ l -> g i = h i) -> sumQc (g <$> l) = sumQc (h <$> l).
Proof.
  induction l as [|x l IH]; intros Hgh; [done|].
  rewrite !fmap_cons, !sumQc_cons, Hgh by left.
  rewrite IH; [done|]. intros i Hi. apply Hgh. by right.
Qed.

Lemma sumQc_scale {A} (g : A -> Qc) (c : Qc) (l : list A) :
  sumQc ((fun i => g i * c) <$> l) = sumQc (g <$> l) * c.
Proof.
  induction l as [|x l IH].
  - symmetry. apply Qcmult_0_l.
  - rewrite !fmap_cons, !sumQc_cons, IH. ring.
Qed.


Lemma Sigma_range lo n g : Sigma lo (n - 1) g = sumQc (g <$> range lo n).
Proof. unfold Sigma, range. do 3 f_equal. lia. Qed.

(** A loop whose body calls the integrand once, on [pt i], and adds [g i] to
    the running total, returns the start value plus the sum of the [g i], and
    has called the integrand on the points [pt i] in the order of the loop. *)
Lemma for_range_acc (l : list Z) (body : Z -> Qc -> M Qc) (g pt : Z -> Qc) :
  (forall i t w, i ∈ l -> body i t w = (Return (t + g i), logged [pt i] w)) ->
  forall total w,
    for_range l body total w
    = (Return (total + sumQc (g <$> l)), logged (pt <$> l) w).
Proof.
  induction l as [|i l IH]; intros Hbody total w; cbn [for_range].
  - unfold ret. rewrite !fmap_nil, logged_nil.
    change (sumQc []) with 0. by rewrite Qcplus_0_r.
  - erewrite bind_Return by (apply Hbody; left).
    rewrite IH by (intros; apply Hbody; by right).
    rewrite logged_logged, !fmap_cons, sumQc_cons.
    by rewrite Qcplus_assoc.
Qed.

(** ** What each method computes *)

Section Runs.

Variable uniform : nat -> Qc -> Qc -> Qc.

Lemma deterministic_cases (m : string) :
  m ∈ deterministic -> m = "left" \/ m = "right" \/ m = "mid".
Proof.
  unfold deterministic. rewrite !elem_of_cons, elem_of_nil. tauto.
Qed.

Lemma rectangle_point_run self x0 dx w :
  mode self ∈ deterministic ->
  rectangle_point uniform self x0 dx w = (Return (code_point (mode self) x0 dx), w).
Proof.
  intros Hm. unfold rectangle_point, code_point.
  destruct (deterministic_cases _ Hm) as [-> | [-> | ->]]; reflexivity.
Qed.

Lemma RectangleMethod_integrate_run self a b n f w :
  mode self ∈ deterministic -> n ≠ 0%Z ->
  let dx := (b - a) / Qc_of_Z n in
  let pt i := code_point (mode self) (a + Qc_of_Z i * dx) dx in
  RectangleMethod_integrate uniform self a b n f w
  = (Return (sumQc ((fun i => f (pt i) * dx) <$> range 0 n)),
     logged (pt <$> range 0 n) w).
Proof.
  intros Hm Hn dx pt. unfold RectangleMethod_integrate.
  erewrite bind_Return by (by apply truediv_nonzero). fold dx.
  erewrite (for_range_acc _ _ (fun i => f (pt i) * dx) pt).
  - by rewrite Qcplus_0_l.
  - intros i t w' _. cbv zeta.
    erewrite bind_Return by (by apply rectangle_point_run).
    reflexivity.
Qed.

Lemma TrapezoidalMethod_integrate_run a b n f w :
  n ≠ 0%Z ->
  let dx := (b - a) / Qc_of_Z n in
  TrapezoidalMethod_integrate a b n f w
  = (Return ((half * (f a + f b)
              + sumQc ((fun i => f (a + Qc_of_Z i * dx)) <$> range 1 n)) * dx),
     logged (trapezoid_points a b n) w).
Proof.
  intros Hn dx. unfold TrapezoidalMethod_integrate, trapezoid_points.
  erewrite bind_Return by (by apply truediv_nonzero). fold dx.
  do 2 (erewrite bind_Return by apply call_run).
  erewrite bind_Return.
  2:{ apply (for_range_acc _ _ (fun i => f (a + Qc_of_Z i * dx))
               (fun i => a + Qc_of_Z i * dx)).
      intros i t w' _. reflexivity. }
  unfold ret. by rewrite !logged_logged.
Qed.

Lemma SimpsonMethod_integrate_odd a b n f w :
  Z.odd n = true ->
  SimpsonMethod_integrate a b n f w = (Raise (ValueError Simpson_msg), w).
Proof.
  intros Hodd. unfold SimpsonMethod_integrate.
  rewrite Zmod_odd, Hodd. reflexivity.
Qed.

Lemma SimpsonMethod_integrate_run a b n f w :
  Z.even n = true -> n ≠ 0%Z ->
  let dx := (b - a) / Qc_of_Z n in
  SimpsonMethod_integrate a b n f w
  = (Return ((f a + f b
              + sumQc ((fun i => Qc_of_Z (code_coef i) * f (a + Qc_of_Z i * dx))
                         <$> range 1 n)) * dx / Qc_of_Z 3),
     logged (trapezoid_points a b n) w).
Proof.
  intros Heven Hn dx. unfold SimpsonMethod_integrate, trapezoid_points.
  rewrite Zmod_even, Heven. cbn [Z.eqb negb].
  erewrite bind_Return by (by apply truediv_nonzero). fold dx.
  do 2 (erewrite bind_Return by apply call_run).
  erewrite bind_Return.
  2:{ apply (for_range_acc _ _
               (fun i => Qc_of_Z (code_coef i) * f (a + Qc_of_Z i * dx))
               (fun i => a + Qc_of_Z i * dx)).
      intros i t w' _. reflexivity. }
  unfold ret. by rewrite !logged_logged.
Qed.

Lemma code_coef_spec i : Qc_of_Z (code_coef i) = spec_coef i.
Proof.
  unfold code_coef, spec_coef. rewrite Zmod_odd. by destruct (Z.odd i).
Qed.

Lemma spec_point_code m x0 dx :
  m ∈ deterministic -> spec_point m x0 (x0 + dx) = code_point m x0 dx.
Proof.
  intros Hm.
  destruct (deterministic_cases _ Hm) as [-> | [-> | ->]]; reflexivity.
Qed.

Lemma Qc_of_Z_succ i : Qc_of_Z (i + 1) = Qc_of_Z i + 1.
Proof. by rewrite Z2Qc_inj_add, Z2Qc_inj_1. Qed.

End Runs.

(** ** Arithmetic used by the remaining claims *)

Lemma half_inv : half = / (1 + 1).
Proof. by apply Qc_is_canon. Qed.

(** Closes [c ≠ 0] for a numeral [c], and for a hypothesis. *)
Ltac nonzero :=
  first
    [ assumption
    | let H := fresh in
      intros H; apply (f_equal this) in H; vm_compute in H; discriminate H ].

(** Summing over a range in the opposite order. *)
Lemma sumQc_seqZ_mirror (g : Z -> Qc) (k : nat) (lo : Z) :
  sumQc (g <$> seqZ lo (Z.of_nat k))
  = sumQc ((fun i => g (lo + lo + Z.of_nat k - 1 - i)%Z) <$> seqZ lo (Z.of_nat k)).
Proof.
  revert lo. induction k as [|k IH]; intros lo; [done|].
  rewrite (seqZ_S lo k) at 2.
  rewrite (seqZ_cons lo) by lia.
  replace (Z.pred (Z.of_nat (S k))) with (Z.of_nat k) by lia.
  rewrite fmap_cons, fmap_app, sumQc_cons, sumQc_app, Qcplus_comm.
  f_equal.
  - rewrite IH. replace (Z.succ lo) with (1 + lo)%Z by lia.
    rewrite <- fmap_add_seqZ, <- list_fmap_compose.
    apply sumQc_ext. intros i _. simpl. f_equal. lia.
  - simpl. rewrite Qcplus_0_r. f_equal. lia.
Qed.

Lemma sumQc_range_mirror (g : Z -> Qc) (lo hi : Z) :
  sumQc (g <$> range lo hi)
  = sumQc ((fun i => g (lo + hi - 1 - i)%Z) <$> range lo hi).
Proof.
  unfold range. destruct (decide (hi - lo <= 0)%Z) as [Hle | Hgt].
  - by rewrite seqZ_nil.
  - rewrite <- (Z2Nat.id (hi - lo)) by lia.
    rewrite sumQc_seqZ_mirror. apply sumQc_ext. intros i _. f_equal. lia.
Qed.

(** The sum of a linear integrand over the interior points of the grid. *)
Lemma sumQc_linear (p q a dx : Qc) (k : nat) :
  sumQc ((fun i => p * (a + Qc_of_Z i * dx) + q) <$> seqZ 1 (Z.of_nat k))
  = Qc_of_Z (Z.of_nat k) * (p * a + q)
    + p * dx * (Qc_of_Z (Z.of_nat k) * (Qc_of_Z (Z.of_nat k) + 1)) * half.
Proof.
  induction k as [|k IH].
  - change (Z.of_nat 0) with 0%Z. rewrite Z2Qc_inj_0.
    change (sumQc _) with 0. ring.
  - rewrite seqZ_S, fmap_app, sumQc_app, IH.
    replace (Z.of_nat (S k)) with (Z.of_nat k + 1)%Z by lia.
    replace (1 + Z.of_nat k)%Z with (Z.of_nat k + 1)%Z by lia.
    rewrite fmap_cons, sumQc_cons. change (sumQc (_ <$> [])) with 0.
    rewrite Qc_of_Z_succ, half_inv. field. nonzero.
Qed.

Lemma sumQc_mirror_ext (g h : Z -> Qc) (lo hi : Z) :
  (forall i, g (lo + hi - 1 - i)%Z = h i) ->
  sumQc (g <$> range lo hi) = sumQc (h <$> range lo hi).
Proof.
  intros Hgh. rewrite sumQc_range_mirror. apply sumQc_ext. intros i _. apply Hgh.
Qed.

Lemma code_coef_mirror (n i : Z) :
  Z.even n = true -> code_coef (n - i) = code_coef i.
Proof.
  intros Heven. unfold code_coef.
  rewrite !Zmod_odd, Z.odd_sub, <- Z.negb_even, Heven. by destruct (Z.odd i).
Qed.

(** The width of the subintervals changes sign with the bounds. *)
Lemma dx_reversed (a b : Qc) (n : Z) :
  n ≠ 0%Z -> (a - b) / Qc_of_Z n = - ((b - a) / Qc_of_Z n).
Proof. intros Hn. field. by apply Qc_of_Z_nonzero. Qed.

(** The grid seen from the other end: point [n - i] from [a] is point [i]
    from [b]. *)
Lemma grid_reversed (a b : Qc) (n i : Z) :
  n ≠ 0%Z ->
  a + Qc_of_Z (n - i) * ((b - a) / Qc_of_Z n)
  = b + Qc_of_Z i * - ((b - a) / Qc_of_Z n).
Proof.
  intros Hn. rewrite Z2Qc_inj_sub. field. by apply Qc_of_Z_nonzero.
Qed.

Lemma mirror_deterministic m : m ∈ deterministic -> mirror m ∈ deterministic.
Proof.
  intros Hm. destruct (deterministic_cases _ Hm) as [-> | [-> | ->]];
    unfold deterministic; cbn; repeat constructor.
Qed.

Lemma code_point_reversed (m : string) (a b : Qc) (n i : Z) :
  m ∈ deterministic -> n ≠ 0%Z ->
  let dx := (b - a) / Qc_of_Z n in
  code_point m (a + Qc_of_Z (n - 1 - i) * dx) dx
  = code_point (mirror m) (b + Qc_of_Z i * - dx) (- dx).
Proof.
  intros Hm Hn dx. pose proof (Qc_of_Z_nonzero n Hn) as HN.
  assert (Hx0 : a + Qc_of_Z (n - 1 - i) * dx = b + Qc_of_Z i * - dx + - dx).
  { unfold dx. rewrite !Z2Qc_inj_sub, Z2Qc_inj_1. field. nonzero. }
  destruct (deterministic_cases _ Hm) as [-> | [-> | ->]];
    unfold code_point, mirror; cbn [String.eqb Ascii.eqb Bool.eqb]; cbv iota;
    rewrite Hx0; rewrite ?Z2Qc_inj_2; try field; try ring; nonzero.
Qed.

(** ** The embedding on the specification's examples *)

Example Simpson_cube :
  returned (SimpsonMethod_integrate 0 1 2 cube w0) = Some (1 # 4)%Q.
Proof. reflexivity. Qed.

Example Simpson_three_raises :
  SimpsonMethod_integrate 0 1 3 cube w0 = (Raise (ValueError Simpson_msg), w0).
Proof. reflexivity. Qed.

Example rectangle_left_identity :
  returned (RectangleMethod_integrate u0 {| mode := "left" |} 0 1 10 id w0)
  = Some (9 # 20)%Q.
Proof. vm_compute. reflexivity. Qed.

Example rectangle_right_identity :
  returned (RectangleMethod_integrate u0 {| mode := "right" |} 0 1 10 id w0)
  = Some (11 # 20)%Q.
Proof. vm_compute. reflexivity. Qed.

Example rectangle_mid_points :
  this <$> calls (RectangleMethod_integrate u0 {| mode := "mid" |} 0 1 2 id w0).2
  = [(1 # 4)%Q; (3 # 4)%Q].
Proof. vm_compute. reflexivity. Qed.

Example rectangle_random_draws :
  drawn (RectangleMethod_integrate u0 {| mode := "random" |} 0 1 4 id w0).2
  = 4%nat.
Proof. vm_compute. reflexivity. Qed.

Example rectangle_no_subintervals :
  returned (RectangleMethod_integrate u0 {| mode := "left" |} 0 1 (-3) id w0)
  = Some 0%Q.
Proof. vm_compute. reflexivity. Qed.

Example rectangle_default_mode :
  RectangleMethod_default w0 = (Return {| mode := "left" |}, w0).
Proof. reflexivity. Qed.

(** ** The claims of the specification *)

(** Over exact rational arithmetic, constructing [RectangleMethod(mode)] for
    a mode among left, right and mid and calling [integrate(a, b, n, f)] with
    [n >= 1] returns the sum over [i = 0 .. n-1] of [f(xi) * dx]. *)
Lemma Rectangle_exact_sum
    (uniform : nat -> Qc -> Qc -> Qc) (m : string)
    (a b : Qc) (n : Z) (f : Qc -> Qc) (w : world) :
  m ∈ deterministic -> (1 <= n)%Z ->
  ((self <- RectangleMethod_init m ;;
    RectangleMethod_integrate uniform self a b n f) w).1
  = Return (Rectangle_spec m a b n f).
Proof.
  intros Hm Hn.
  assert (Hinit : RectangleMethod_init m w = (Return {| mode := m |}, w)).
  { unfold RectangleMethod_init. rewrite bool_decide_eq_true_2; [done|].
    unfold modes. destruct (deterministic_cases _ Hm) as [-> | [-> | ->]];
      repeat constructor. }
  erewrite bind_Return by exact Hinit.
  rewrite RectangleMethod_integrate_run by (simpl; first [done | lia]).
  cbn [fst mode]. f_equal. unfold Rectangle_spec. rewrite Sigma_range.
  apply sumQc_ext. intros i _. do 2 f_equal.
  rewrite <- (spec_point_code m) by done. f_equal.
  rewrite Qc_of_Z_succ. ring.
Qed.

(** Over exact rational arithmetic the trapezoidal loop returns the formula
    of the specification. *)
Lemma Trapezoidal_exact_formula
    (a b : Qc) (n : Z) (f : Qc -> Qc) (w : world) :
  (1 <= n)%Z ->
  (TrapezoidalMethod_integrate a b n f w).1 = Return (Trapezoidal_spec a b n f).
Proof.
  intros Hn. rewrite TrapezoidalMethod_integrate_run by lia.
  cbn [fst]. unfold Trapezoidal_spec. by rewrite Sigma_range.
Qed.

(** Over exact rational arithmetic Simpson's loop returns the formula of the
    specification. *)
Lemma Simpson_exact_formula
    (a b : Qc) (n : Z) (f : Qc -> Qc) (w : world) :
  (2 <= n)%Z -> Z.even n = true ->
  (SimpsonMethod_integrate a b n f w).1 = Return (Simpson_spec a b n f).
Proof.
  intros Hn Heven. rewrite SimpsonMethod_integrate_run by (done || lia).
  cbn [fst]. unfold Simpson_spec. rewrite Sigma_range. do 4 f_equal.
  apply sumQc_ext. intros i _. by rewrite code_coef_spec.
Qed.

(** C4, as the specification words it, fails: for [n = 3] the error that is
    raised does not carry the message the specification quotes. *)
Lemma SimpsonMethod_message_counterexample :
  (SimpsonMethod_integrate 0 1 3 sq_plus_one w0).1
  ≠ Raise (ValueError "n must be even for Simpson's rule").
Proof. vm_compute. discriminate. Qed.

(** C5.  A mode outside left, right, mid, random makes the construction of
    [RectangleMethod] itself raise (the [assert] fails), so whatever follows
    the construction, such as a call of [integrate], is never reached; a mode
    inside the set constructs the object with that mode. *)
Theorem RectangleMethod_init_checks_mode
    (m : string) (w : world) :
  (m ∉ modes ->
     RectangleMethod_init m w = (Raise AssertionError, w)
     /\ forall (k : RectangleMethod -> M Qc),
          (self <- RectangleMethod_init m ;; k self) w = (Raise AssertionError, w))
  /\ (m ∈ modes -> RectangleMethod_init m w = (Return {| mode := m |}, w)).
Proof.
  unfold RectangleMethod_init. split; intros Hm.
  - assert (H : RectangleMethod_init m w = (Raise AssertionError, w)).
    { unfold RectangleMethod_init. by rewrite bool_decide_eq_false_2. }
    split; [exact H|]. intros k. by apply bind_Raise.
  - by rewrite bool_decide_eq_true_2.
Qed.

Lemma RectangleMethod_init_checks_mode_witness :
  (RectangleMethod_init "invalid" w0 = (Raise AssertionError, w0)
   /\ forall (k : RectangleMethod -> M Qc),
        (self <- RectangleMethod_init "invalid" ;; k self) w0
        = (Raise AssertionError, w0))
  /\ RectangleMethod_init "random" w0 = (Return {| mode := "random" |}, w0).
Proof.
  split.
  - apply (RectangleMethod_init_checks_mode "invalid" w0).
    unfold modes. rewrite !elem_of_cons, elem_of_nil.
    intros [H | [H | [H | [H | []]]]]; discriminate H.
  - apply (RectangleMethod_init_checks_mode "random" w0).
    unfold modes. repeat constructor.
Defined.

(** C6, amended.  Over exact rational arithmetic, for [n >= 1] (and [n] even
    for Simpson), reversing the bounds negates the result of the rectangle method in mode mid, of the
    trapezoidal method and of Simpson's method; for the rectangle method in
    modes left and right it negates the result and exchanges the two modes:
    [left(a, b) = - right(b, a)] and [right(a, b) = - left(b, a)]. *)
Theorem reversed_bounds_negate
    (uniform : nat -> Qc -> Qc -> Qc) (m : string)
    (a b : Qc) (n : Z) (f : Qc -> Qc) (w w' : world) :
  (1 <= n)%Z -> m ∈ deterministic ->
  negates (RectangleMethod_integrate uniform {| mode := m |} a b n f w)
          (RectangleMethod_integrate uniform {| mode := mirror m |} b a n f w')
  /\ negates (TrapezoidalMethod_integrate a b n f w)
             (TrapezoidalMethod_integrate b a n f w')
  /\ (Z.even n = true ->
      negates (SimpsonMethod_integrate a b n f w)
              (SimpsonMethod_integrate b a n f w')).
Proof.
  intros Hn Hm. assert (Hn0 : n ≠ 0%Z) by lia.
  pose proof (dx_reversed a b n Hn0) as Hdx.
  unfold negates. split; [|split; [|intros Heven]].
  - rewrite !RectangleMethod_integrate_run
      by (cbn [mode]; auto using mirror_deterministic).
    eexists; split; [reflexivity|].
    cbn [fst mode]. f_equal. rewrite Hdx.
    set (dx := (b - a) / Qc_of_Z n).
    rewrite (sumQc_range_mirror _ 0 n).
    rewrite (sumQc_scale
               (fun i => f (code_point (mirror m) (b + Qc_of_Z i * - dx) (- dx)))
               (- dx)).
    match goal with
    | |- _ = - (?s * - dx) => transitivity (s * dx); [|ring]
    end.
    rewrite <- sumQc_scale. apply sumQc_ext. intros i _. cbv beta.
    replace (0 + n - 1 - i)%Z with (n - 1 - i)%Z by lia.
    unfold dx. by rewrite code_point_reversed.
  - rewrite !TrapezoidalMethod_integrate_run by done.
    eexists; split; [reflexivity|].
    cbn [fst]. f_equal. rewrite Hdx.
    rewrite (sumQc_mirror_ext
               (fun i => f (a + Qc_of_Z i * ((b - a) / Qc_of_Z n)))
               (fun i => f (b + Qc_of_Z i * - ((b - a) / Qc_of_Z n)))).
    + ring.
    + intros i. replace (1 + n - 1 - i)%Z with (n - i)%Z by lia.
      by rewrite grid_reversed.
  - rewrite !SimpsonMethod_integrate_run by done.
    eexists; split; [reflexivity|].
    cbn [fst]. f_equal. rewrite Hdx.
    rewrite (sumQc_mirror_ext
               (fun i => Qc_of_Z (code_coef i)
                         * f (a + Qc_of_Z i * ((b - a) / Qc_of_Z n)))
               (fun i => Qc_of_Z (code_coef i)
                         * f (b + Qc_of_Z i * - ((b - a) / Qc_of_Z n)))).
    + unfold Qcdiv. ring.
    + intros i. replace (1 + n - 1 - i)%Z with (n - i)%Z by lia.
      by rewrite grid_reversed, code_coef_mirror.
Qed.

Lemma reversed_bounds_negate_witness :
  negates (RectangleMethod_integrate u0 {| mode := "left" |} 0 1 2 sq_plus_one w0)
          (RectangleMethod_integrate u0 {| mode := "right" |} 1 0 2 sq_plus_one w0)
  /\ negates (TrapezoidalMethod_integrate 0 1 2 sq_plus_one w0)
             (TrapezoidalMethod_integrate 1 0 2 sq_plus_one w0)
  /\ negates (SimpsonMethod_integrate 0 1 2 sq_plus_one w0)
             (SimpsonMethod_integrate 1 0 2 sq_plus_one w0).
Proof.
  destruct (reversed_bounds_negate u0 "left" 0 1 2 sq_plus_one w0 w0)
    as [Hrect [Htrap Hsimpson]]; [lia | repeat constructor |].
  split; [exact Hrect | split; [exact Htrap | exact (Hsimpson eq_refl)]].
Defined.

(** C8.  For a linear integrand [f x = p * x + q] and [n >= 1] the
    trapezoidal method returns the exact integral of [f] over [[a, b]]; for
    [f x = 2 * x + 1], [a = 0], [b = 2] and [n = 4] it returns exactly 6. *)
Theorem TrapezoidalMethod_exact_on_linear
    (p q a b : Qc) (n : Z) (w : world) :
  ((1 <= n)%Z ->
   (TrapezoidalMethod_integrate a b n (fun x => p * x + q) w).1
   = Return (linear_integral p q a b))
  /\ (TrapezoidalMethod_integrate 0 (Qc_of_Z 2) 4
        (fun x => Qc_of_Z 2 * x + 1) w).1
     = Return (Qc_of_Z 6).
Proof.
  assert (Hgen : forall p q a b n w, (1 <= n)%Z ->
            (TrapezoidalMethod_integrate a b n (fun x => p * x + q) w).1
            = Return (linear_integral p q a b)).
  { clear. intros p q a b n w Hn.
    rewrite TrapezoidalMethod_integrate_run by lia. cbn [fst]. f_equal.
    unfold range. rewrite <- (Z2Nat.id (n - 1)) by lia. rewrite sumQc_linear.
    rewrite Z2Nat.id by lia. rewrite Z2Qc_inj_sub, Z2Qc_inj_1.
    unfold linear_integral. rewrite Z2Qc_inj_2, half_inv.
    field. split; [nonzero | apply Qc_of_Z_nonzero; lia]. }
  split; [apply Hgen|].
  rewrite Hgen by lia. f_equal. by apply Qc_is_canon.
Qed.

Lemma TrapezoidalMethod_exact_on_linear_witness :
  (TrapezoidalMethod_integrate 0 1 3 (fun x => Qc_of_Z 5 * x + Qc_of_Z 7) w0).1
  = Return (linear_integral (Qc_of_Z 5) (Qc_of_Z 7) 0 1).
Proof.
  apply (TrapezoidalMethod_exact_on_linear (Qc_of_Z 5) (Qc_of_Z 7) 0 1 3 w0).
  lia.
Defined.

(** C9.  For odd [n], [SimpsonMethod.integrate] raises its error with the
    world as it found it: the integrand has not been called (nothing was
    added to the record of its calls) and the outcome does not depend on the
    integrand or on the bounds. *)
Theorem SimpsonMethod_integrate_odd_no_work
    (a b : Qc) (n : Z) (f : Qc -> Qc) (w : world) :
  Z.odd n = true ->
  (SimpsonMethod_integrate a b n f w).2 = w
  /\ calls (SimpsonMethod_integrate a b n f w).2 = calls w
  /\ raised (SimpsonMethod_integrate a b n f w) = Some (ValueError Simpson_msg)
  /\ forall (a' b' : Qc) (g : Qc -> Qc),
       SimpsonMethod_integrate a' b' n g w = SimpsonMethod_integrate a b n f w.
Proof.
  intros Hodd. rewrite !SimpsonMethod_integrate_odd by done.
  repeat split. intros a' b' g. by rewrite SimpsonMethod_integrate_odd.
Qed.

Lemma SimpsonMethod_integrate_odd_no_work_witness :
  (SimpsonMethod_integrate 0 1 3 sq_plus_one w0).2 = w0
  /\ calls (SimpsonMethod_integrate 0 1 3 sq_plus_one w0).2 = calls w0
  /\ raised (SimpsonMethod_integrate 0 1 3 sq_plus_one w0)
     = Some (ValueError Simpson_msg)
  /\ forall (a' b' : Qc) (g : Qc -> Qc),
       SimpsonMethod_integrate a' b' 3 g w0
       = SimpsonMethod_integrate 0 1 3 sq_plus_one w0.
Proof. apply SimpsonMethod_integrate_odd_no_work. reflexivity. Defined.



(** * Further properties over exact arithmetic *)

(** ** Further definitions *)

(** The loop of [RectangleMethod.integrate] in mode "random", in closed form:
    the points drawn for the subintervals [l], the first draw being draw
    number [k] of the process. *)
Fixpoint random_points (uniform : nat -> Qc -> Qc -> Qc)
    (a dx : Qc) (k : nat) (l : list Z) : list Qc :=
  match l with
  | [] => []
  | i :: l' =>
      uniform k (a + Qc_of_Z i * dx) (a + Qc_of_Z i * dx + dx)
      :: random_points uniform a dx (S k) l'
  end.

(** [within a b x]: [x] lies in the closed interval [[a, b]]. *)
Definition within (a b x : Qc) : Prop := a <= x /\ x <= b.

(** The random source answers inside the bounds it is given. *)
Definition in_bounds (uniform : nat -> Qc -> Qc -> Qc) : Prop :=
  forall k lo hi, lo <= hi -> within lo hi (uniform k lo hi).

(** A cubic polynomial and its exact integral over [[a, b]]. *)
Definition cubic (c3 c2 c1 c0 x : Qc) : Qc :=
  c3 * (x * x * x) + c2 * (x * x) + c1 * x + c0.

Definition cubic_integral (c3 c2 c1 c0 a b : Qc) : Qc :=
  c3 * (b * b * b * b - a * a * a * a) / Qc_of_Z 4
  + c2 * (b * b * b - a * a * a) / Qc_of_Z 3
  + c1 * (b * b - a * a) / Qc_of_Z 2
  + c0 * (b - a).


(** ** Mode "random": what the loop draws and returns *)

Lemma length_random_points uniform a dx k l :
  length (random_points uniform a dx k l) = length l.
Proof. revert k. induction l as [|i l IH]; intros k; simpl; by rewrite ?IH. Qed.

Lemma rectangle_point_random uniform self x0 dx w :
  mode self ∉ deterministic ->
  rectangle_point uniform self x0 dx w
  = (Return (uniform (drawn w) x0 (x0 + dx)), World (calls w) (S (drawn w))).
Proof.
  intros Hm. unfold rectangle_point.
  destruct (String.eqb_spec (mode self) "left") as [E|_];
    [exfalso; apply Hm; rewrite E; repeat constructor|].
  destruct (String.eqb_spec (mode self) "right") as [E|_];
    [exfalso; apply Hm; rewrite E; repeat constructor|].
  destruct (String.eqb_spec (mode self) "mid") as [E|_];
    [exfalso; apply Hm; rewrite E; repeat constructor|].
  reflexivity.
Qed.

Lemma for_range_random uniform self a dx f (l : list Z) :
  mode self ∉ deterministic ->
  forall total w,
    for_range l
      (fun i total =>
         let x0 := a + Qc_of_Z i * dx in
         xi <- rectangle_point uniform self x0 dx ;;
         y <- call f xi ;;
         ret (total + y * dx)) total w
    = (Return (total
               + sumQc ((fun x => f x * dx)
                          <$> random_points uniform a dx (drawn w) l)),
       World (calls w ++ random_points uniform a dx (drawn w) l)
             (drawn w + length l)).
Proof.
  intros Hm. induction l as [|i l IH]; intros total w; cbn [for_range].
  - unfold ret. cbn [random_points length]. rewrite fmap_nil, app_nil_r.
    change (sumQc []) with 0. rewrite Qcplus_0_r, Nat.add_0_r. by destruct w.
  - cbv zeta. erewrite bind_Return.
    2:{ erewrite bind_Return by (by apply rectangle_point_random).
        erewrite bind_Return by apply call_run. reflexivity. }
    rewrite IH. cbn [random_points logged calls drawn length].
    rewrite fmap_cons, sumQc_cons, Qcplus_assoc, <- app_assoc.
    do 2 f_equal. lia.
Qed.

Lemma RectangleMethod_integrate_random_run uniform self a b n f w :
  mode self ∉ deterministic -> n ≠ 0%Z ->
  let dx := (b - a) / Qc_of_Z n in
  let pts := random_points uniform a dx (drawn w) (range 0 n) in
  RectangleMethod_integrate uniform self a b n f w
  = (Return (sumQc ((fun x => f x * dx) <$> pts)),
     World (calls w ++ pts) (drawn w + Z.to_nat n)).
Proof.
  intros Hm Hn dx pts. unfold RectangleMethod_integrate.
  erewrite bind_Return by (by apply truediv_nonzero). fold dx.
  rewrite for_range_random by done. fold pts.
  rewrite Qcplus_0_l. unfold range. rewrite length_seqZ.
  by replace (n - 0)%Z with n by lia.
Qed.


(** ** Sums over ranges, continued *)

Lemma sumQc_lin {A} (g h : A -> Qc) (al be : Qc) (l : list A) :
  sumQc ((fun i => al * g i + be * h i) <$> l)
  = al * sumQc (g <$> l) + be * sumQc (h <$> l).
Proof.
  induction l as [|x l IH].
  - change (sumQc (_ <$> [])) with 0. ring.
  - rewrite !fmap_cons, !sumQc_cons, IH. ring.
Qed.

Lemma sumQc_const {A} (c : Qc) (l : list A) :
  sumQc ((fun _ => c) <$> l) = Qc_of_Z (Z.of_nat (length l)) * c.
Proof.
  induction l as [|x l IH].
  - change (sumQc (_ <$> [])) with 0. cbn [length].
    change (Z.of_nat 0) with 0%Z. rewrite Z2Qc_inj_0. ring.
  - rewrite fmap_cons, sumQc_cons, IH. cbn [length].
    rewrite Nat2Z.inj_succ, <- Z.add_1_r, Qc_of_Z_succ. ring.
Qed.

Lemma range_cons (lo hi : Z) :
  (lo < hi)%Z -> range lo hi = lo :: range (lo + 1) hi.
Proof.
  intros H. unfold range. rewrite seqZ_cons by lia.
  replace (Z.succ lo) with (lo + 1)%Z by lia.
  by replace (Z.pred (hi - lo)) with (hi - (lo + 1))%Z by lia.
Qed.

Lemma range_snoc (lo hi : Z) :
  (lo < hi)%Z -> range lo hi = range lo (hi - 1) ++ [(hi - 1)%Z].
Proof.
  intros H. unfold range.
  replace (hi - lo)%Z with ((hi - 1 - lo) + 1)%Z by lia.
  rewrite seqZ_app by lia. f_equal.
  rewrite seqZ_cons, seqZ_nil by lia. f_equal. lia.
Qed.

Lemma range_shift (g : Z -> Qc) (lo hi : Z) :
  (fun i => g (i + 1)%Z) <$> range lo hi = g <$> range (lo + 1) (hi + 1).
Proof.
  unfold range. replace (hi + 1 - (lo + 1))%Z with (hi - lo)%Z by lia.
  replace (lo + 1)%Z with (1 + lo)%Z by lia.
  rewrite <- fmap_add_seqZ, <- list_fmap_compose.
  apply list_fmap_ext. intros _ i _. simpl. f_equal. lia.
Qed.

(** The grid [a, a + dx, ..., a + n*dx] ends at [b]. *)
Lemma grid_end (a b : Qc) (n : Z) :
  n ≠ 0%Z -> a + Qc_of_Z n * ((b - a) / Qc_of_Z n) = b.
Proof. intros Hn. field. by apply Qc_of_Z_nonzero. Qed.

Lemma grid_start (a dx : Qc) : a + Qc_of_Z 0 * dx = a.
Proof. rewrite Z2Qc_inj_0. ring. Qed.

Lemma grid_succ (a dx : Qc) (i : Z) :
  a + Qc_of_Z (i + 1) * dx = a + Qc_of_Z i * dx + dx.
Proof. rewrite Qc_of_Z_succ. ring. Qed.

(** The values at the left endpoints are [f a] and the interior values; the
    values at the right endpoints are the interior values and [f b]. *)
Lemma left_values (f : Qc -> Qc) (a dx : Qc) (n : Z) :
  (1 <= n)%Z ->
  sumQc ((fun i => f (a + Qc_of_Z i * dx)) <$> range 0 n)
  = f a + sumQc ((fun i => f (a + Qc_of_Z i * dx)) <$> range 1 n).
Proof.
  intros Hn. rewrite (range_cons 0 n) by lia.
  by rewrite fmap_cons, sumQc_cons, grid_start.
Qed.

Lemma right_values (f : Qc -> Qc) (a b : Qc) (n : Z) :
  (1 <= n)%Z ->
  let dx := (b - a) / Qc_of_Z n in
  sumQc ((fun i => f (a + Qc_of_Z i * dx + dx)) <$> range 0 n)
  = sumQc ((fun i => f (a + Qc_of_Z i * dx)) <$> range 1 n) + f b.
Proof.
  intros Hn dx.
  rewrite (sumQc_ext _ (fun i => f (a + Qc_of_Z (i + 1) * dx)))
    by (intros i _; by rewrite grid_succ).
  rewrite (range_snoc 0 n), fmap_app, sumQc_app by lia.
  rewrite (range_shift (fun i => f (a + Qc_of_Z i * dx)) 0 (n - 1)).
  replace (n - 1 + 1)%Z with n by lia.
  rewrite fmap_cons, fmap_nil, sumQc_cons. change (sumQc []) with 0.
  replace (n - 1 + 1)%Z with n by lia. unfold dx.
  rewrite grid_end by lia. by rewrite Qcplus_0_r.
Qed.

(** The results of the rectangle method in modes left and right. *)
Lemma RectangleMethod_integrate_left uniform a b n f w :
  (1 <= n)%Z ->
  let dx := (b - a) / Qc_of_Z n in
  (RectangleMethod_integrate uniform {| mode := "left" |} a b n f w).1
  = Return ((f a + sumQc ((fun i => f (a + Qc_of_Z i * dx)) <$> range 1 n)) * dx).
Proof.
  intros Hn dx.
  rewrite RectangleMethod_integrate_run by (first [lia | repeat constructor]).
  cbn [fst mode]. f_equal. fold dx.
  rewrite <- left_values by done.
  by rewrite <- (sumQc_scale (fun i => f (a + Qc_of_Z i * dx)) dx).
Qed.

Lemma RectangleMethod_integrate_right uniform a b n f w :
  (1 <= n)%Z ->
  let dx := (b - a) / Qc_of_Z n in
  (RectangleMethod_integrate uniform {| mode := "right" |} a b n f w).1
  = Return ((sumQc ((fun i => f (a + Qc_of_Z i * dx)) <$> range 1 n) + f b) * dx).
Proof.
  intros Hn dx.
  rewrite RectangleMethod_integrate_run by (first [lia | repeat constructor]).
  cbn [fst mode]. f_equal. fold dx. unfold dx.
  rewrite <- right_values by done. fold dx.
  by rewrite <- (sumQc_scale (fun i => f (a + Qc_of_Z i * dx + dx)) dx).
Qed.

(** ** How the methods relate to each other and to the integrand *)

(** X6.  For [n >= 1] the result of the trapezoidal method is the mean of the
    results of the rectangle method in modes left and right. *)
Theorem trapezoid_mean_of_left_right
    (uniform : nat -> Qc -> Qc -> Qc)
    (a b : Qc) (n : Z) (f : Qc -> Qc) (w wl wr : world) :
  (1 <= n)%Z ->
  exists l r : Qc,
    (RectangleMethod_integrate uniform {| mode := "left" |} a b n f wl).1
    = Return l
    /\ (RectangleMethod_integrate uniform {| mode := "right" |} a b n f wr).1
       = Return r
    /\ (TrapezoidalMethod_integrate a b n f w).1 = Return (half * (l + r)).
Proof.
  intros Hn. do 2 eexists.
  split; [by apply RectangleMethod_integrate_left|].
  split; [by apply RectangleMethod_integrate_right|].
  rewrite TrapezoidalMethod_integrate_run by lia. cbn [fst]. f_equal.
  rewrite half_inv. field. split; [apply Qc_of_Z_nonzero; lia | nonzero].
Qed.

Lemma trapezoid_mean_of_left_right_witness :
  exists l r : Qc,
    (RectangleMethod_integrate u0 {| mode := "left" |} 0 1 3 sq_plus_one w0).1
    = Return l
    /\ (RectangleMethod_integrate u0 {| mode := "right" |} 0 1 3 sq_plus_one w0).1
       = Return r
    /\ (TrapezoidalMethod_integrate 0 1 3 sq_plus_one w0).1
       = Return (half * (l + r)).
Proof. apply trapezoid_mean_of_left_right. lia. Defined.

(** X7.  Over exact rational arithmetic, for [n >= 1] the results of modes right and left differ by
    [(f(b) - f(a)) * dx]: the two rules share all interior values. *)
Theorem right_minus_left
    (uniform : nat -> Qc -> Qc -> Qc)
    (a b : Qc) (n : Z) (f : Qc -> Qc) (wl wr : world) :
  (1 <= n)%Z ->
  exists l r : Qc,
    (RectangleMethod_integrate uniform {| mode := "left" |} a b n f wl).1
    = Return l
    /\ (RectangleMethod_integrate uniform {| mode := "right" |} a b n f wr).1
       = Return r
    /\ r - l = (f b - f a) * ((b - a) / Qc_of_Z n).
Proof.
  intros Hn. do 2 eexists.
  split; [by apply RectangleMethod_integrate_left|].
  split; [by apply RectangleMethod_integrate_right|].
  ring.
Qed.

Lemma right_minus_left_witness :
  exists l r : Qc,
    (RectangleMethod_integrate u0 {| mode := "left" |} 0 1 3 sq_plus_one w0).1
    = Return l
    /\ (RectangleMethod_integrate u0 {| mode := "right" |} 0 1 3 sq_plus_one w0).1
       = Return r
    /\ r - l = (sq_plus_one 1 - sq_plus_one 0) * ((1 - 0) / Qc_of_Z 3).
Proof. apply right_minus_left. lia. Defined.

(** X8.  Over exact rational arithmetic every method is linear in the
    integrand: for [n >= 1] (even for
    Simpson) the result for [x |-> al * f x + be * g x] is [al] times the
    result for [f] plus [be] times the result for [g]. *)
Theorem integrate_linear_in_integrand
    (uniform : nat -> Qc -> Qc -> Qc) (m : string)
    (a b : Qc) (n : Z) (f g : Qc -> Qc) (al be : Qc) (w : world) :
  (1 <= n)%Z -> m ∈ deterministic ->
  let h x := al * f x + be * g x in
  let lin (I : (Qc -> Qc) -> M Qc) :=
    exists vf vg : Qc,
      (I f w).1 = Return vf /\ (I g w).1 = Return vg
      /\ (I h w).1 = Return (al * vf + be * vg) in
  lin (RectangleMethod_integrate uniform {| mode := m |} a b n)
  /\ lin (TrapezoidalMethod_integrate a b n)
  /\ (Z.even n = true -> lin (SimpsonMethod_integrate a b n)).
Proof.
  intros Hn Hm h lin. unfold lin. assert (Hn0 : n ≠ 0%Z) by lia.
  split; [|split; [|intros Heven]]; do 2 eexists.
  - rewrite !RectangleMethod_integrate_run by done.
    split; [reflexivity|]. split; [reflexivity|]. cbn [fst mode]. f_equal.
    rewrite <- sumQc_lin. apply sumQc_ext. intros i _. unfold h. ring.
  - rewrite !TrapezoidalMethod_integrate_run by done.
    split; [reflexivity|]. split; [reflexivity|]. cbn [fst]. f_equal.
    unfold h. rewrite sumQc_lin. ring.
  - rewrite !SimpsonMethod_integrate_run by done.
    split; [reflexivity|]. split; [reflexivity|]. cbn [fst]. f_equal.
    unfold h.
    rewrite (sumQc_ext _ (fun i =>
               al * (Qc_of_Z (code_coef i)
                     * f (a + Qc_of_Z i * ((b - a) / Qc_of_Z n)))
               + be * (Qc_of_Z (code_coef i)
                       * g (a + Qc_of_Z i * ((b - a) / Qc_of_Z n)))))
      by (intros i _; ring).
    rewrite sumQc_lin. unfold Qcdiv. ring.
Qed.

Lemma integrate_linear_in_integrand_witness :
  let h x := Qc_of_Z 2 * sq_plus_one x + Qc_of_Z 3 * cube x in
  let lin (I : (Qc -> Qc) -> M Qc) :=
    exists vf vg : Qc,
      (I sq_plus_one w0).1 = Return vf /\ (I cube w0).1 = Return vg
      /\ (I h w0).1 = Return (Qc_of_Z 2 * vf + Qc_of_Z 3 * vg) in
  lin (RectangleMethod_integrate u0 {| mode := "mid" |} 0 1 2)
  /\ lin (TrapezoidalMethod_integrate 0 1 2)
  /\ lin (SimpsonMethod_integrate 0 1 2).
Proof.
  destruct (integrate_linear_in_integrand u0 "mid" 0 1 2 sq_plus_one cube
              (Qc_of_Z 2) (Qc_of_Z 3) w0) as [Hrect [Htrap Hsimpson]];
    [lia | repeat constructor |].
  split; [exact Hrect | split; [exact Htrap | exact (Hsimpson eq_refl)]].
Defined.

(** X9.  Over exact rational arithmetic a constant integrand is integrated
    exactly: for [n >= 1] the
    rectangle method returns [c * (b - a)] in every mode, in mode "random"
    whatever the random source delivers, and so does the trapezoidal
    method. *)
Theorem integrate_constant
    (uniform : nat -> Qc -> Qc -> Qc) (self : RectangleMethod)
    (a b c : Qc) (n : Z) (w : world) :
  (1 <= n)%Z ->
  (RectangleMethod_integrate uniform self a b n (fun _ => c) w).1
  = Return (c * (b - a))
  /\ (TrapezoidalMethod_integrate a b n (fun _ => c) w).1
     = Return (c * (b - a)).
Proof.
  intros Hn. assert (Hn0 : n ≠ 0%Z) by lia.
  pose proof (Qc_of_Z_nonzero n Hn0) as HN.
  assert (Hlen : forall (A : Type) (l : list A), length l = Z.to_nat n ->
            sumQc ((fun _ => c * ((b - a) / Qc_of_Z n)) <$> l) = c * (b - a)).
  { intros A l Hl. rewrite sumQc_const, Hl, Z2Nat.id by lia. by field. }
  split.
  - destruct (decide (mode self ∈ deterministic)).
    + rewrite RectangleMethod_integrate_run by done. cbn [fst]. f_equal.
      apply Hlen. unfold range. rewrite length_seqZ. f_equal. lia.
    + rewrite RectangleMethod_integrate_random_run by done. cbn [fst]. f_equal.
      apply Hlen. unfold range. rewrite length_random_points, length_seqZ.
      f_equal. lia.
  - rewrite TrapezoidalMethod_integrate_run by done. cbn [fst]. f_equal.
    rewrite sumQc_const. unfold range. rewrite length_seqZ, Z2Nat.id by lia.
    rewrite Z2Qc_inj_sub, Z2Qc_inj_1, half_inv. field. split; [nonzero|done].
Qed.

Lemma integrate_constant_witness :
  (RectangleMethod_integrate u0 {| mode := "random" |} 0 1 3
     (fun _ => Qc_of_Z 5) w0).1
  = Return (Qc_of_Z 5 * (1 - 0))
  /\ (TrapezoidalMethod_integrate 0 1 3 (fun _ => Qc_of_Z 5) w0).1
     = Return (Qc_of_Z 5 * (1 - 0)).
Proof. apply integrate_constant. lia. Defined.

(** ** Exactness on polynomials *)

Lemma sumQc_linear_from_zero (p q a dx : Qc) (n : Z) :
  (0 <= n)%Z ->
  sumQc ((fun i => p * (a + Qc_of_Z i * dx) + q) <$> range 0 n)
  = Qc_of_Z n * (p * a + q) + p * dx * (Qc_of_Z n * (Qc_of_Z n - 1)) * half.
Proof.
  intros Hn.
  rewrite (sumQc_ext _
             (fun i => (fun j => p * (a - dx + Qc_of_Z j * dx) + q) (i + 1)%Z))
    by (intros i _; cbv beta; rewrite Qc_of_Z_succ; ring).
  rewrite (range_shift (fun j => p * (a - dx + Qc_of_Z j * dx) + q) 0 n).
  unfold range. replace (n + 1 - (0 + 1))%Z with (Z.of_nat (Z.to_nat n)) by lia.
  change (0 + 1)%Z with 1%Z. rewrite sumQc_linear, Z2Nat.id by lia.
  rewrite half_inv. field. nonzero.
Qed.

(** X10.  Over exact rational arithmetic, on a linear integrand [f x = p * x + q] with [n >= 1], mode mid
    returns the exact integral, mode left falls short of it by
    [p * (b - a) * dx / 2] and mode right exceeds it by as much. *)
Theorem rectangle_on_linear
    (uniform : nat -> Qc -> Qc -> Qc)
    (p q a b : Qc) (n : Z) (w : world) :
  (1 <= n)%Z ->
  let f x := p * x + q in
  let dx := (b - a) / Qc_of_Z n in
  (RectangleMethod_integrate uniform {| mode := "mid" |} a b n f w).1
  = Return (linear_integral p q a b)
  /\ (RectangleMethod_integrate uniform {| mode := "left" |} a b n f w).1
     = Return (linear_integral p q a b - p * (b - a) * dx * half)
  /\ (RectangleMethod_integrate uniform {| mode := "right" |} a b n f w).1
     = Return (linear_integral p q a b + p * (b - a) * dx * half).
Proof.
  intros Hn f dx. assert (HN : Qc_of_Z n ≠ 0) by (apply Qc_of_Z_nonzero; lia).
  assert (Hoff : forall s : Qc,
            sumQc ((fun i => (p * (a + Qc_of_Z i * dx + s) + q) * dx)
                     <$> range 0 n)
            = linear_integral p q a b + p * (b - a) * (s - dx * half)).
  { intros s.
    rewrite (sumQc_ext _ (fun i => (p * (a + s + Qc_of_Z i * dx) + q) * dx))
      by (intros i _; ring).
    rewrite (sumQc_scale (fun i => p * (a + s + Qc_of_Z i * dx) + q) dx).
    rewrite sumQc_linear_from_zero by lia.
    unfold linear_integral, dx. rewrite Z2Qc_inj_2, half_inv.
    field. split; [nonzero | done]. }
  split; [|split];
    rewrite RectangleMethod_integrate_run by (first [lia | repeat constructor]);
    cbn [fst mode]; f_equal; fold dx; unfold f.
  - rewrite <- (Qcplus_0_r (linear_integral p q a b)).
    replace 0 with (p * (b - a) * (dx * half - dx * half)) by ring.
    rewrite <- Hoff. apply sumQc_ext. intros i _.
    unfold code_point. cbn [String.eqb Ascii.eqb Bool.eqb]. cbv iota.
    rewrite Z2Qc_inj_2, half_inv. field. nonzero.
  - replace (linear_integral p q a b - p * (b - a) * dx * half)
      with (linear_integral p q a b + p * (b - a) * (0 - dx * half)) by ring.
    rewrite <- Hoff. apply sumQc_ext. intros i _.
    unfold code_point. cbn [String.eqb Ascii.eqb Bool.eqb]. cbv iota. ring.
  - replace (linear_integral p q a b + p * (b - a) * dx * half)
      with (linear_integral p q a b + p * (b - a) * (dx - dx * half))
      by (rewrite half_inv; field; nonzero).
    rewrite <- Hoff. apply sumQc_ext. intros i _.
    unfold code_point. cbn [String.eqb Ascii.eqb Bool.eqb]. cbv iota. ring.
Qed.

Lemma rectangle_on_linear_witness :
  let f x := Qc_of_Z 5 * x + Qc_of_Z 7 in
  let dx := (1 - 0) / Qc_of_Z 3 in
  (RectangleMethod_integrate u0 {| mode := "mid" |} 0 1 3 f w0).1
  = Return (linear_integral (Qc_of_Z 5) (Qc_of_Z 7) 0 1)
  /\ (RectangleMethod_integrate u0 {| mode := "left" |} 0 1 3 f w0).1
     = Return (linear_integral (Qc_of_Z 5) (Qc_of_Z 7) 0 1
               - Qc_of_Z 5 * (1 - 0) * dx * half)
  /\ (RectangleMethod_integrate u0 {| mode := "right" |} 0 1 3 f w0).1
     = Return (linear_integral (Qc_of_Z 5) (Qc_of_Z 7) 0 1
               + Qc_of_Z 5 * (1 - 0) * dx * half).
Proof.
  apply (rectangle_on_linear u0 (Qc_of_Z 5) (Qc_of_Z 7) 0 1 3 w0). lia.
Defined.

Lemma Qc_of_Z_4 : Qc_of_Z 4 = 1 + 1 + 1 + 1.
Proof. by apply Qc_is_canon. Qed.

Lemma Qc_of_Z_3 : Qc_of_Z 3 = 1 + 1 + 1.
Proof. by apply Qc_is_canon. Qed.

Lemma code_coef_even (i : Z) : Z.even i = true -> code_coef i = 2%Z.
Proof.
  intros H. unfold code_coef. by rewrite Zmod_odd, <- Z.negb_even, H.
Qed.

Lemma code_coef_odd (i : Z) : Z.odd i = true -> code_coef i = 4%Z.
Proof. intros H. unfold code_coef. by rewrite Zmod_odd, H. Qed.

(** The interior sums of the loops over [i = 1 .. 2j+1], one pair of
    subintervals at a time: with Simpson's coefficients, with coefficient 1
    (the trapezoidal loop), and over the even indices only. *)
Lemma seqZ_two_more (j : nat) :
  seqZ 1 (Z.of_nat (2 * S j + 1))
  = seqZ 1 (Z.of_nat (2 * j + 1))
    ++ [(2 * Z.of_nat j + 2)%Z; (2 * Z.of_nat j + 3)%Z].
Proof.
  replace (2 * S j + 1)%nat with (S (S (2 * j + 1))) by lia.
  rewrite !seqZ_S, <- app_assoc. cbn [app]. f_equal.
  f_equal; [lia | f_equal; lia].
Qed.

Lemma Simpson_sum_S (g : Z -> Qc) (j : nat) :
  sumQc ((fun i => Qc_of_Z (code_coef i) * g i)
           <$> seqZ 1 (Z.of_nat (2 * S j + 1)))
  = sumQc ((fun i => Qc_of_Z (code_coef i) * g i)
             <$> seqZ 1 (Z.of_nat (2 * j + 1)))
    + (Qc_of_Z 2 * g (2 * Z.of_nat j + 2)%Z
       + Qc_of_Z 4 * g (2 * Z.of_nat j + 3)%Z).
Proof.
  rewrite seqZ_two_more, fmap_app, sumQc_app. f_equal.
  rewrite !fmap_cons, fmap_nil, !sumQc_cons. change (sumQc []) with 0.
  assert (Heven : Z.even (2 * Z.of_nat j + 2) = true).
  { replace (2 * Z.of_nat j + 2)%Z with (2 * (Z.of_nat j + 1))%Z by lia.
    by rewrite Z.even_mul. }
  assert (Hodd : Z.odd (2 * Z.of_nat j + 3) = true).
  { replace (2 * Z.of_nat j + 3)%Z with (2 * (Z.of_nat j + 1) + 1)%Z by lia.
    by rewrite Z.odd_add, Z.odd_mul. }
  rewrite code_coef_even, code_coef_odd by done. ring.
Qed.

Lemma trapezoid_sum_S (g : Z -> Qc) (j : nat) :
  sumQc (g <$> seqZ 1 (Z.of_nat (2 * S j + 1)))
  = sumQc (g <$> seqZ 1 (Z.of_nat (2 * j + 1)))
    + (g (2 * Z.of_nat j + 2)%Z + g (2 * Z.of_nat j + 3)%Z).
Proof.
  rewrite seqZ_two_more, fmap_app, sumQc_app. f_equal.
  rewrite !fmap_cons, fmap_nil, !sumQc_cons. change (sumQc []) with 0. ring.
Qed.

Lemma even_sum_S (g : Z -> Qc) (j : nat) :
  sumQc ((fun i => g (2 * i)%Z) <$> seqZ 1 (Z.of_nat (S j)))
  = sumQc ((fun i => g (2 * i)%Z) <$> seqZ 1 (Z.of_nat j))
    + g (2 * Z.of_nat j + 2)%Z.
Proof.
  rewrite seqZ_S, fmap_app, sumQc_app. f_equal.
  rewrite fmap_cons, fmap_nil, sumQc_cons. change (sumQc []) with 0.
  rewrite Qcplus_0_r. f_equal. lia.
Qed.

(** Simpson's weights are four times the trapezoidal weights on the fine
    grid minus twice the weights on the even points. *)
Lemma Simpson_sum_split (g : Z -> Qc) (j : nat) :
  sumQc ((fun i => Qc_of_Z (code_coef i) * g i)
           <$> seqZ 1 (Z.of_nat (2 * j + 1)))
  = Qc_of_Z 4 * sumQc (g <$> seqZ 1 (Z.of_nat (2 * j + 1)))
    - Qc_of_Z 2 * sumQc ((fun i => g (2 * i)%Z) <$> seqZ 1 (Z.of_nat j)).
Proof.
  induction j as [|j IH].
  - change (seqZ 1 (Z.of_nat (2 * 0 + 1))) with [1%Z].
    change (seqZ 1 (Z.of_nat 0)) with (@nil Z).
    rewrite !fmap_cons, !fmap_nil, !sumQc_cons.
    change (sumQc []) with 0. rewrite (code_coef_odd 1) by done.
    rewrite Qc_of_Z_4. ring.
  - rewrite Simpson_sum_S, trapezoid_sum_S, even_sum_S, IH.
    rewrite Qc_of_Z_4, Z2Qc_inj_2. ring.
Qed.

(** Simpson's rule on one pair of subintervals is exact on cubics. *)
Lemma Simpson_panel (c3 c2 c1 c0 x h : Qc) :
  (cubic c3 c2 c1 c0 x + Qc_of_Z 4 * cubic c3 c2 c1 c0 (x + h)
   + cubic c3 c2 c1 c0 (x + h + h)) * h
  = Qc_of_Z 3 * cubic_integral c3 c2 c1 c0 x (x + h + h).
Proof.
  unfold cubic, cubic_integral.
  rewrite Qc_of_Z_4, Qc_of_Z_3, Z2Qc_inj_2. field. repeat split; nonzero.
Qed.

Lemma cubic_integral_chain (c3 c2 c1 c0 x y z : Qc) :
  cubic_integral c3 c2 c1 c0 x y + cubic_integral c3 c2 c1 c0 y z
  = cubic_integral c3 c2 c1 c0 x z.
Proof. unfold cubic_integral, Qcdiv. ring. Qed.

Lemma Simpson_cubic_panels (c3 c2 c1 c0 a dx : Qc) (j : nat) :
  let f := cubic c3 c2 c1 c0 in
  (f a + f (a + Qc_of_Z (2 * Z.of_nat j + 2) * dx)
   + sumQc ((fun i => Qc_of_Z (code_coef i) * f (a + Qc_of_Z i * dx))
              <$> seqZ 1 (Z.of_nat (2 * j + 1)))) * dx
  = Qc_of_Z 3
    * cubic_integral c3 c2 c1 c0 a (a + Qc_of_Z (2 * Z.of_nat j + 2) * dx).
Proof.
  intros f. induction j as [|j IH].
  - change (seqZ 1 (Z.of_nat (2 * 0 + 1))) with [1%Z].
    rewrite !fmap_cons, !fmap_nil, !sumQc_cons.
    change (sumQc []) with 0. rewrite (code_coef_odd 1) by done.
    change (2 * Z.of_nat 0 + 2)%Z with (1 + 1)%Z.
    rewrite Qc_of_Z_succ, Z2Qc_inj_1.
    replace (a + (1 + 1) * dx) with (a + dx + dx) by ring.
    replace (a + 1 * dx) with (a + dx) by ring.
    rewrite <- Simpson_panel. fold f. ring.
  - rewrite (Simpson_sum_S (fun i => f (a + Qc_of_Z i * dx))).
    set (x := a + Qc_of_Z (2 * Z.of_nat j + 2) * dx) in *.
    replace (2 * Z.of_nat (S j) + 2)%Z with (2 * Z.of_nat j + 2 + 1 + 1)%Z
      by lia.
    replace (2 * Z.of_nat j + 3)%Z with (2 * Z.of_nat j + 2 + 1)%Z by lia.
    rewrite !grid_succ. fold x.
    rewrite <- (cubic_integral_chain c3 c2 c1 c0 a x (x + dx + dx)).
    rewrite Qcmult_plus_distr_r, <- IH, <- Simpson_panel. fold f.
    rewrite Z2Qc_inj_2, Qc_of_Z_4. ring.
Qed.

Lemma even_decompose (n : Z) :
  (2 <= n)%Z -> Z.even n = true ->
  exists j : nat, n = (2 * Z.of_nat j + 2)%Z.
Proof.
  intros Hn Heven. apply Z.even_spec in Heven as [k Hk].
  exists (Z.to_nat (k - 1)). lia.
Qed.

Lemma range_interior (j : nat) :
  range 1 (2 * Z.of_nat j + 2) = seqZ 1 (Z.of_nat (2 * j + 1)).
Proof. unfold range. f_equal. lia. Qed.

(** X11.  Over exact rational arithmetic Simpson's method is exact on polynomials of degree at most 3: for
    even [n >= 2] and [f x = c3*x^3 + c2*x^2 + c1*x + c0] it returns the exact
    integral of [f] over [[a, b]]. *)
Theorem SimpsonMethod_exact_on_cubic
    (c3 c2 c1 c0 a b : Qc) (n : Z) (w : world) :
  (2 <= n)%Z -> Z.even n = true ->
  (SimpsonMethod_integrate a b n (cubic c3 c2 c1 c0) w).1
  = Return (cubic_integral c3 c2 c1 c0 a b).
Proof.
  intros Hn Heven. assert (Hn0 : n ≠ 0%Z) by lia.
  rewrite SimpsonMethod_integrate_run by done. cbn [fst]. f_equal.
  destruct (even_decompose n Hn Heven) as [j Hj].
  set (dx := (b - a) / Qc_of_Z n).
  pose proof (Simpson_cubic_panels c3 c2 c1 c0 a dx j) as Hpanels.
  cbv zeta in Hpanels. rewrite <- Hj in Hpanels. unfold dx in Hpanels at 1 4.
  rewrite grid_end in Hpanels by done.
  rewrite <- range_interior, <- Hj in Hpanels. rewrite Hpanels.
  rewrite Qc_of_Z_3. field. nonzero.
Qed.

Lemma SimpsonMethod_exact_on_cubic_witness :
  (SimpsonMethod_integrate 0 1 4 (cubic 1 (Qc_of_Z 2) 0 (Qc_of_Z 5)) w0).1
  = Return (cubic_integral 1 (Qc_of_Z 2) 0 (Qc_of_Z 5) 0 1).
Proof.
  apply SimpsonMethod_exact_on_cubic; [lia | reflexivity].
Defined.

(** X12.  Over exact rational arithmetic Simpson's result on [2k] subintervals is the combination
    [(4 * T(2k) - T(k)) / 3] of the trapezoidal results on [2k] and on [k]
    subintervals, for every [k >= 1]. *)
Theorem Simpson_from_trapezoids
    (a b : Qc) (k : Z) (f : Qc -> Qc) (w w1 w2 : world) :
  (1 <= k)%Z ->
  exists t1 t2 : Qc,
    (TrapezoidalMethod_integrate a b k f w1).1 = Return t1
    /\ (TrapezoidalMethod_integrate a b (2 * k) f w2).1 = Return t2
    /\ (SimpsonMethod_integrate a b (2 * k) f w).1
       = Return ((Qc_of_Z 4 * t2 - t1) / Qc_of_Z 3).
Proof.
  intros Hk. do 2 eexists.
  assert (Heven : Z.even (2 * k) = true) by (by rewrite Z.even_mul).
  rewrite !TrapezoidalMethod_integrate_run by lia.
  rewrite SimpsonMethod_integrate_run by (done || lia).
  split; [reflexivity|]. split; [reflexivity|]. cbn [fst]. f_equal.
  assert (HK : Qc_of_Z k ≠ 0) by (apply Qc_of_Z_nonzero; lia).
  set (dx := (b - a) / Qc_of_Z (2 * k)).
  assert (Hdx : (b - a) / Qc_of_Z k = (1 + 1) * dx).
  { unfold dx. rewrite Z2Qc_inj_mul, Z2Qc_inj_2. field. split; [done|nonzero]. }
  rewrite Hdx.
  rewrite (sumQc_ext (fun i => f (a + Qc_of_Z i * ((1 + 1) * dx)))
             (fun i => (fun i' => f (a + Qc_of_Z i' * dx)) (2 * i)%Z))
    by (intros i _; cbv beta; rewrite Z2Qc_inj_mul, Z2Qc_inj_2; f_equal; ring).
  destruct (even_decompose (2 * k)) as [j Hj]; [lia | done |].
  replace (range 1 k) with (seqZ 1 (Z.of_nat j)) by (unfold range; f_equal; lia).
  rewrite Hj, range_interior.
  rewrite (Simpson_sum_split (fun i => f (a + Qc_of_Z i * dx)) j).
  rewrite Qc_of_Z_4, Qc_of_Z_3, Z2Qc_inj_2, half_inv. field.
  split; nonzero.
Qed.

Lemma Simpson_from_trapezoids_witness :
  exists t1 t2 : Qc,
    (TrapezoidalMethod_integrate 0 1 2 sq_plus_one w0).1 = Return t1
    /\ (TrapezoidalMethod_integrate 0 1 (2 * 2) sq_plus_one w0).1 = Return t2
    /\ (SimpsonMethod_integrate 0 1 (2 * 2) sq_plus_one w0).1
       = Return ((Qc_of_Z 4 * t2 - t1) / Qc_of_Z 3).
Proof. apply Simpson_from_trapezoids. lia. Defined.

(** ** Order: where the integrand is sampled, and bracketing *)

(** Moves a linear order goal on [Qc] to [Q], where [lra] decides it. *)
Ltac Qc_to_Q :=
  unfold within, Qcle, Qclt, Qcminus in *;
  cbn [this Qcplus Qcmult Qcopp Q2Qc half] in *;
  rewrite ?Qred_correct in *.

Lemma mid_point_half (x0 dx : Qc) :
  (x0 + (x0 + dx)) / Qc_of_Z 2 = x0 + half * dx.
Proof. rewrite Z2Qc_inj_2, half_inv. field. nonzero. Qed.

Lemma dx_nonneg (a b : Qc) (n : Z) :
  a <= b -> (1 <= n)%Z -> 0 <= (b - a) / Qc_of_Z n.
Proof.
  intros Hab Hn. unfold Qcdiv. apply Qcmult_nonneg_nonneg.
  - Qc_to_Q. lra.
  - apply Qclt_le_weak, Qcinv_pos. rewrite <- Z2Qc_inj_0.
    apply (proj1 (Z2Qc_inj_lt 0 n)). lia.
Qed.

Lemma grid_mono (a dx : Qc) (i j : Z) :
  0 <= dx -> (i <= j)%Z -> a + Qc_of_Z i * dx <= a + Qc_of_Z j * dx.
Proof.
  intros Hdx Hij. apply Qcplus_le_mono_l, Qcmult_le_mono_nonneg_r; [done|].
  by apply (proj1 (Z2Qc_inj_le i j)).
Qed.

Lemma grid_within (a b : Qc) (n i : Z) :
  a <= b -> (1 <= n)%Z -> (0 <= i <= n)%Z ->
  within a b (a + Qc_of_Z i * ((b - a) / Qc_of_Z n)).
Proof.
  intros Hab Hn Hi. pose proof (dx_nonneg a b n Hab Hn) as Hdx. split.
  - rewrite <- (grid_start a ((b - a) / Qc_of_Z n)) at 1.
    apply grid_mono; [done | lia].
  - rewrite <- (grid_end a b n) at 2 by lia. apply grid_mono; [done | lia].
Qed.

Lemma subinterval_within (a b : Qc) (n i : Z) (x : Qc) :
  a <= b -> (1 <= n)%Z -> (0 <= i < n)%Z ->
  let dx := (b - a) / Qc_of_Z n in
  within (a + Qc_of_Z i * dx) (a + Qc_of_Z i * dx + dx) x -> within a b x.
Proof.
  intros Hab Hn Hi dx [Hlo Hhi].
  destruct (grid_within a b n i Hab Hn) as [Hlo' _]; [lia|].
  destruct (grid_within a b n (i + 1) Hab Hn) as [_ Hhi']; [lia|].
  rewrite grid_succ in Hhi'. fold dx in Hlo', Hhi'.
  split; [by etrans | by etrans].
Qed.

Lemma code_point_within (m : string) (x0 dx : Qc) :
  m ∈ deterministic -> 0 <= dx -> within x0 (x0 + dx) (code_point m x0 dx).
Proof.
  intros Hm Hdx.
  destruct (deterministic_cases _ Hm) as [-> | [-> | ->]];
    unfold code_point; cbn [String.eqb Ascii.eqb Bool.eqb]; cbv iota;
    rewrite ?mid_point_half; Qc_to_Q; split; lra.
Qed.

Lemma random_points_within uniform (a dx : Qc) (k : nat) (l : list Z)
    (P : Qc -> Prop) :
  in_bounds uniform -> 0 <= dx ->
  (forall i x, i ∈ l ->
     within (a + Qc_of_Z i * dx) (a + Qc_of_Z i * dx + dx) x -> P x) ->
  Forall P (random_points uniform a dx k l).
Proof.
  intros Hu Hdx. revert k. induction l as [|i l IH]; intros k HP.
  - constructor.
  - cbn [random_points]. constructor.
    + apply (HP i); [left|]. apply Hu. Qc_to_Q. lra.
    + apply IH. intros j x Hj. apply HP. by right.
Qed.


Lemma u0_in_bounds : in_bounds u0.
Proof. intros k lo hi Hle. unfold u0. Qc_to_Q. split; lra. Qed.


Lemma sumQc_le {A} (g h : A -> Qc) (l : list A) :
  (forall i, i ∈ l -> g i <= h i) -> sumQc (g <$> l) <= sumQc (h <$> l).
Proof.
  induction l as [|x l IH]; intros Hgh.
  - apply Qcle_refl.
  - rewrite !fmap_cons, !sumQc_cons. apply Qcplus_le_compat.
    + apply Hgh. left.
    + apply IH. intros i Hi. apply Hgh. by right.
Qed.

Lemma random_sum_between uniform (f : Qc -> Qc) (a dx : Qc) (k : nat)
    (l : list Z) :
  in_bounds uniform -> 0 <= dx ->
  (forall i x, i ∈ l ->
     within (a + Qc_of_Z i * dx) (a + Qc_of_Z i * dx + dx) x ->
     f (a + Qc_of_Z i * dx) <= f x /\ f x <= f (a + Qc_of_Z i * dx + dx)) ->
  sumQc ((fun i => f (a + Qc_of_Z i * dx) * dx) <$> l)
  <= sumQc ((fun x => f x * dx) <$> random_points uniform a dx k l)
  /\ sumQc ((fun x => f x * dx) <$> random_points uniform a dx k l)
     <= sumQc ((fun i => f (a + Qc_of_Z i * dx + dx) * dx) <$> l).
Proof.
  intros Hu Hdx. revert k. induction l as [|i l IH]; intros k Hf.
  - split; apply Qcle_refl.
  - cbn [random_points]. rewrite !fmap_cons, !sumQc_cons.
    destruct (IH (S k)) as [IHlo IHhi]; [intros j x Hj; apply Hf; by right|].
    destruct (Hf i (uniform k (a + Qc_of_Z i * dx) (a + Qc_of_Z i * dx + dx)))
      as [Hlo Hhi]; [left | apply Hu; Qc_to_Q; lra |].
    split; (apply Qcplus_le_compat;
            [by apply Qcmult_le_mono_nonneg_r | done]).
Qed.

(** X14.  Bracketing, over exact rational arithmetic.  With [a <= b], [n >= 1] and an integrand that is
    nondecreasing on [[a, b]], the result of mode left is a lower bound and
    the result of mode right an upper bound for the result of every mode of
    the rectangle method (mode "random" when the random source answers
    inside the bounds it is given) and for the trapezoidal method. *)
Theorem left_right_bracket
    (uniform : nat -> Qc -> Qc -> Qc) (self : RectangleMethod)
    (a b : Qc) (n : Z) (f : Qc -> Qc) (w wl wr wt : world) :
  a <= b -> (1 <= n)%Z ->
  (forall x y, within a b x -> within a b y -> x <= y -> f x <= f y) ->
  mode self ∈ deterministic \/ in_bounds uniform ->
  exists l v r t : Qc,
    (RectangleMethod_integrate uniform {| mode := "left" |} a b n f wl).1
    = Return l
    /\ (RectangleMethod_integrate uniform self a b n f w).1 = Return v
    /\ (RectangleMethod_integrate uniform {| mode := "right" |} a b n f wr).1
       = Return r
    /\ (TrapezoidalMethod_integrate a b n f wt).1 = Return t
    /\ (l <= v /\ v <= r) /\ (l <= t /\ t <= r).
Proof.
  intros Hab Hn Hf Hmode. assert (Hn0 : n ≠ 0%Z) by lia.
  set (dx := (b - a) / Qc_of_Z n).
  pose proof (dx_nonneg a b n Hab Hn) as Hdx. fold dx in Hdx.
  set (L := sumQc ((fun i => f (a + Qc_of_Z i * dx) * dx) <$> range 0 n)).
  set (R := sumQc ((fun i => f (a + Qc_of_Z i * dx + dx) * dx) <$> range 0 n)).
  assert (Hsub : forall i x, i ∈ range 0 n ->
            within (a + Qc_of_Z i * dx) (a + Qc_of_Z i * dx + dx) x ->
            f (a + Qc_of_Z i * dx) <= f x
            /\ f x <= f (a + Qc_of_Z i * dx + dx)).
  { intros i x Hi%elem_of_seqZ Hx.
    assert (Hin : forall y,
              within (a + Qc_of_Z i * dx) (a + Qc_of_Z i * dx + dx) y ->
              within a b y).
    { intros y. apply (subinterval_within a b n i); [done | done | lia]. }
    assert (Hends : a + Qc_of_Z i * dx <= a + Qc_of_Z i * dx + dx)
      by (Qc_to_Q; lra).
    split; (apply Hf; [apply Hin | apply Hin | apply Hx]);
      first [exact Hx | split; first [apply Qcle_refl | exact Hends]]. }
  assert (HLR : L <= R).
  { apply sumQc_le. intros i Hi. apply Qcmult_le_mono_nonneg_r; [done|].
    destruct (Hsub i (a + Qc_of_Z i * dx) Hi) as [_ H]; [|exact H].
    split; [apply Qcle_refl | Qc_to_Q; lra]. }
  exists L.
  assert (Hv : exists v,
            (RectangleMethod_integrate uniform self a b n f w).1 = Return v
            /\ L <= v /\ v <= R).
  { destruct (decide (mode self ∈ deterministic)) as [Hm | Hm].
    - rewrite RectangleMethod_integrate_run by done. eexists.
      split; [reflexivity|]. fold dx.
      split; apply sumQc_le; intros i Hi;
        (apply Qcmult_le_mono_nonneg_r; [done|]);
        apply (Hsub i _ Hi); by apply code_point_within.
    - destruct Hmode as [? | Hu]; [done|].
      rewrite RectangleMethod_integrate_random_run by done. eexists.
      split; [reflexivity|]. fold dx. by apply random_sum_between. }
  destruct Hv as [v [Hv Hbounds]].
  exists v, R, (half * (L + R)).
  split; [by rewrite RectangleMethod_integrate_run
            by (first [done | repeat constructor])|].
  split; [exact Hv|].
  split; [by rewrite RectangleMethod_integrate_run
            by (first [done | repeat constructor])|].
  split; [|split; [exact Hbounds | Qc_to_Q; split; lra]].
  rewrite TrapezoidalMethod_integrate_run by done. cbn [fst]. f_equal.
  fold dx. unfold L, R.
  rewrite (sumQc_scale (fun i => f (a + Qc_of_Z i * dx)) dx).
  rewrite (sumQc_scale (fun i => f (a + Qc_of_Z i * dx + dx)) dx).
  rewrite left_values by done. unfold dx at 4 5. rewrite right_values by done.
  fold dx. rewrite half_inv. field. nonzero.
Qed.

Lemma left_right_bracket_witness :
  exists l v r t : Qc,
    (RectangleMethod_integrate u0 {| mode := "left" |} 0 1 2 sq_plus_one w0).1
    = Return l
    /\ (RectangleMethod_integrate u0 {| mode := "random" |} 0 1 2
          sq_plus_one w0).1 = Return v
    /\ (RectangleMethod_integrate u0 {| mode := "right" |} 0 1 2 sq_plus_one w0).1
       = Return r
    /\ (TrapezoidalMethod_integrate 0 1 2 sq_plus_one w0).1 = Return t
    /\ (l <= v /\ v <= r) /\ (l <= t /\ t <= r).
Proof.
  apply left_right_bracket; [discriminate | lia | | right; apply u0_in_bounds].
  intros x y [Hx _] [Hy _] Hxy. unfold sq_plus_one.
  apply Qcplus_le_compat; [|apply Qcle_refl].
  assert (H0x : 0 <= x) by exact Hx. assert (H0y : 0 <= y) by exact Hy.
  apply Qcle_trans with (x * y).
  - by apply Qcmult_le_mono_nonneg_l.
  - by apply Qcmult_le_mono_nonneg_r.
Defined.

(** ** Change of variable and adjacent intervals *)

Lemma dx_affine (c d a b : Qc) (n : Z) :
  n ≠ 0%Z ->
  (c * b + d - (c * a + d)) / Qc_of_Z n = c * ((b - a) / Qc_of_Z n).
Proof. intros Hn. field. by apply Qc_of_Z_nonzero. Qed.

Lemma code_point_affine (m : string) (c d x0 dx : Qc) :
  m ∈ deterministic ->
  code_point m (c * x0 + d) (c * dx) = c * code_point m x0 dx + d.
Proof.
  intros Hm.
  destruct (deterministic_cases _ Hm) as [-> | [-> | ->]];
    unfold code_point; cbn [String.eqb Ascii.eqb Bool.eqb]; cbv iota;
    rewrite ?mid_point_half; ring.
Qed.

Lemma sumQc_scale_l {A} (g : A -> Qc) (c : Qc) (l : list A) :
  sumQc ((fun i => c * g i) <$> l) = c * sumQc (g <$> l).
Proof.
  rewrite Qcmult_comm, <- (sumQc_scale g c).
  apply sumQc_ext. intros i _. ring.
Qed.

(** X15.  Affine change of variable, over exact rational arithmetic.  For [n >= 1] (even for Simpson),
    integrating [f] over [[c*a + d, c*b + d]] gives [c] times the result of
    integrating [x |-> f (c*x + d)] over [[a, b]], in modes left, right and
    mid, for the trapezoidal method and for Simpson's method. *)
Theorem integrate_affine_substitution
    (uniform : nat -> Qc -> Qc -> Qc) (m : string)
    (c d a b : Qc) (n : Z) (f : Qc -> Qc) (w : world) :
  (1 <= n)%Z -> m ∈ deterministic ->
  let g x := f (c * x + d) in
  let subst (I : Qc -> Qc -> Z -> (Qc -> Qc) -> M Qc) :=
    exists v : Qc,
      (I a b n g w).1 = Return v
      /\ (I (c * a + d) (c * b + d) n f w).1 = Return (c * v) in
  subst (RectangleMethod_integrate uniform {| mode := m |})
  /\ subst TrapezoidalMethod_integrate
  /\ (Z.even n = true -> subst SimpsonMethod_integrate).
Proof.
  intros Hn Hm g subst. unfold subst. assert (Hn0 : n ≠ 0%Z) by lia.
  pose proof (dx_affine c d a b n Hn0) as Hdx.
  set (dx := (b - a) / Qc_of_Z n) in *.
  assert (Hgrid : forall i, c * a + d + Qc_of_Z i * (c * dx)
                            = c * (a + Qc_of_Z i * dx) + d)
    by (intros i; ring).
  split; [|split; [|intros Heven]]; eexists.
  - rewrite !RectangleMethod_integrate_run by done.
    split; [reflexivity|]. cbn [fst mode]. f_equal. rewrite Hdx. fold dx.
    rewrite <- (sumQc_scale_l
                  (fun i => g (code_point m (a + Qc_of_Z i * dx) dx) * dx) c).
    apply sumQc_ext. intros i _. cbv beta.
    rewrite Hgrid, code_point_affine by done. unfold g. ring.
  - rewrite !TrapezoidalMethod_integrate_run by done.
    split; [reflexivity|]. cbn [fst]. f_equal. rewrite Hdx. fold dx.
    rewrite (sumQc_ext (fun i => f (c * a + d + Qc_of_Z i * (c * dx)))
               (fun i => g (a + Qc_of_Z i * dx)))
      by (intros i _; by rewrite Hgrid).
    unfold g. ring.
  - rewrite !SimpsonMethod_integrate_run by done.
    split; [reflexivity|]. cbn [fst]. f_equal. rewrite Hdx. fold dx.
    rewrite (sumQc_ext
               (fun i => Qc_of_Z (code_coef i)
                         * f (c * a + d + Qc_of_Z i * (c * dx)))
               (fun i => Qc_of_Z (code_coef i) * g (a + Qc_of_Z i * dx)))
      by (intros i _; by rewrite Hgrid).
    unfold g, Qcdiv. ring.
Qed.

Lemma integrate_affine_substitution_witness :
  let g x := sq_plus_one (Qc_of_Z 3 * x + Qc_of_Z 2) in
  let subst (I : Qc -> Qc -> Z -> (Qc -> Qc) -> M Qc) :=
    exists v : Qc,
      (I 0 1 2%Z g w0).1 = Return v
      /\ (I (Qc_of_Z 3 * 0 + Qc_of_Z 2) (Qc_of_Z 3 * 1 + Qc_of_Z 2) 2%Z
            sq_plus_one w0).1 = Return (Qc_of_Z 3 * v) in
  subst (RectangleMethod_integrate u0 {| mode := "right" |})
  /\ subst TrapezoidalMethod_integrate
  /\ subst SimpsonMethod_integrate.
Proof.
  destruct (integrate_affine_substitution u0 "right" (Qc_of_Z 3) (Qc_of_Z 2)
              0 1 2 sq_plus_one w0) as [Hrect [Htrap Hsimpson]];
    [lia | repeat constructor |].
  split; [exact Hrect | split; [exact Htrap | exact (Hsimpson eq_refl)]].
Defined.

Lemma sumQc_range_split (g : Z -> Qc) (k1 k2 : Z) :
  (0 <= k1)%Z -> (0 <= k2)%Z ->
  sumQc (g <$> range 0 (k1 + k2))
  = sumQc (g <$> range 0 k1) + sumQc ((fun i => g (k1 + i)%Z) <$> range 0 k2).
Proof.
  intros H1 H2. unfold range.
  replace (k1 + k2 - 0)%Z with (k1 + k2)%Z by lia.
  rewrite seqZ_app, fmap_app, sumQc_app by done.
  replace (k1 - 0)%Z with k1 by lia. f_equal.
  replace (0 + k1)%Z with (k1 + 0)%Z by lia.
  replace (k2 - 0)%Z with k2 by lia.
  by rewrite <- fmap_add_seqZ, <- list_fmap_compose.
Qed.

Lemma sumQc_interior_split (g : Z -> Qc) (n1 n2 : Z) :
  (1 <= n1)%Z -> (1 <= n2)%Z ->
  sumQc (g <$> range 1 (n1 + n2))
  = sumQc (g <$> range 1 n1) + g n1
    + sumQc ((fun i => g (n1 + i)%Z) <$> range 1 n2).
Proof.
  intros H1 H2. unfold range.
  replace (n1 + n2 - 1)%Z with ((n1 - 1) + (1 + (n2 - 1)))%Z by lia.
  rewrite !seqZ_app, !fmap_app, !sumQc_app by lia.
  rewrite Qcplus_assoc. f_equal; [f_equal|].
  - replace (1 + (n1 - 1))%Z with n1 by lia.
    rewrite seqZ_cons, seqZ_nil by lia.
    rewrite fmap_cons, fmap_nil, sumQc_cons. change (sumQc []) with 0.
    apply Qcplus_0_r.
  - replace (1 + (n1 - 1) + 1)%Z with (n1 + 1)%Z by lia.
    by rewrite <- fmap_add_seqZ, <- list_fmap_compose.
Qed.

Lemma code_coef_shift (n i : Z) :
  Z.even n = true -> code_coef (n + i) = code_coef i.
Proof.
  intros Heven. unfold code_coef.
  rewrite !Zmod_odd, Z.odd_add, <- Z.negb_even, Heven. by destruct (Z.odd i).
Qed.

Lemma grid_shift (a h : Qc) (n1 i : Z) :
  a + Qc_of_Z (n1 + i) * h = a + Qc_of_Z n1 * h + Qc_of_Z i * h.
Proof. rewrite Z2Qc_inj_add. ring. Qed.

Lemma step_recovered (x y h : Qc) (n : Z) :
  n ≠ 0%Z -> y - x = Qc_of_Z n * h -> (y - x) / Qc_of_Z n = h.
Proof. intros Hn ->. field. by apply Qc_of_Z_nonzero. Qed.

(** X16.  Adjacent intervals, over exact rational arithmetic.  On a grid of step [h] from [a], the result
    over the first [n1] subintervals plus the result over the next [n2]
    equals the result over all [n1 + n2] subintervals, in modes left, right
    and mid, for the trapezoidal method and, for even [n1] and [n2], for
    Simpson's method. *)
Theorem integrate_adjacent_intervals
    (uniform : nat -> Qc -> Qc -> Qc) (m : string)
    (a h : Qc) (n1 n2 : Z) (f : Qc -> Qc) (w : world) :
  (1 <= n1)%Z -> (1 <= n2)%Z -> m ∈ deterministic ->
  let c := a + Qc_of_Z n1 * h in
  let b := a + Qc_of_Z (n1 + n2) * h in
  let adds (I : Qc -> Qc -> Z -> (Qc -> Qc) -> M Qc) :=
    exists v1 v2 : Qc,
      (I a c n1 f w).1 = Return v1 /\ (I c b n2 f w).1 = Return v2
      /\ (I a b (n1 + n2)%Z f w).1 = Return (v1 + v2) in
  adds (RectangleMethod_integrate uniform {| mode := m |})
  /\ adds TrapezoidalMethod_integrate
  /\ (Z.even n1 = true -> Z.even n2 = true -> adds SimpsonMethod_integrate).
Proof.
  intros Hn1 Hn2 Hm c b adds. unfold adds.
  assert (H1 : (c - a) / Qc_of_Z n1 = h)
    by (apply step_recovered; [lia | unfold c; ring]).
  assert (H2 : (b - c) / Qc_of_Z n2 = h).
  { apply step_recovered; [lia|]. unfold b, c. rewrite Z2Qc_inj_add. ring. }
  assert (H12 : (b - a) / Qc_of_Z (n1 + n2) = h)
    by (apply step_recovered; [lia | unfold b; ring]).
  split; [|split; [|intros Heven1 Heven2]]; do 2 eexists.
  - rewrite !RectangleMethod_integrate_run by (first [done | lia]).
    split; [reflexivity|]. split; [reflexivity|]. cbn [fst mode]. f_equal.
    rewrite H1, H2, H12.
    rewrite (sumQc_range_split
               (fun i => f (code_point m (a + Qc_of_Z i * h) h) * h) n1 n2)
      by lia.
    f_equal. apply sumQc_ext. intros i _. cbv beta. by rewrite grid_shift.
  - rewrite !TrapezoidalMethod_integrate_run by lia.
    split; [reflexivity|]. split; [reflexivity|]. cbn [fst]. f_equal.
    rewrite H1, H2, H12.
    rewrite (sumQc_interior_split (fun i => f (a + Qc_of_Z i * h)) n1 n2)
      by done.
    rewrite (sumQc_ext (fun i => f (a + Qc_of_Z (n1 + i) * h))
               (fun i => f (c + Qc_of_Z i * h)))
      by (intros i _; by rewrite grid_shift).
    fold c. rewrite half_inv. field. nonzero.
  - assert (Heven : Z.even (n1 + n2) = true) by (by rewrite Z.even_add, Heven1, Heven2).
    rewrite !SimpsonMethod_integrate_run by (first [done | lia]).
    split; [reflexivity|]. split; [reflexivity|]. cbn [fst]. f_equal.
    rewrite H1, H2, H12.
    rewrite (sumQc_interior_split
               (fun i => Qc_of_Z (code_coef i) * f (a + Qc_of_Z i * h)) n1 n2)
      by done.
    rewrite (sumQc_ext
               (fun i => Qc_of_Z (code_coef (n1 + i))
                         * f (a + Qc_of_Z (n1 + i) * h))
               (fun i => Qc_of_Z (code_coef i) * f (c + Qc_of_Z i * h)))
      by (intros i _; by rewrite grid_shift, code_coef_shift).
    rewrite (code_coef_even n1) by done. fold c.
    rewrite Z2Qc_inj_2. unfold Qcdiv. ring.
Qed.

Lemma integrate_adjacent_intervals_witness :
  let c := 0 + Qc_of_Z 2 * half in
  let b := 0 + Qc_of_Z (2 + 4) * half in
  let adds (I : Qc -> Qc -> Z -> (Qc -> Qc) -> M Qc) :=
    exists v1 v2 : Qc,
      (I 0 c 2%Z sq_plus_one w0).1 = Return v1
      /\ (I c b 4%Z sq_plus_one w0).1 = Return v2
      /\ (I 0 b (2 + 4)%Z sq_plus_one w0).1 = Return (v1 + v2) in
  adds (RectangleMethod_integrate u0 {| mode := "left" |})
  /\ adds TrapezoidalMethod_integrate
  /\ adds SimpsonMethod_integrate.
Proof.
  destruct (integrate_adjacent_intervals u0 "left" 0 half 2 4 sq_plus_one w0)
    as [Hrect [Htrap Hsimpson]]; [lia | lia | repeat constructor |].
  split; [exact Hrect | split; [exact Htrap | exact (Hsimpson eq_refl eq_refl)]].
Defined.

(** ** Monotonicity in the integrand *)

Lemma code_coef_nonneg (i : Z) : 0 <= Qc_of_Z (code_coef i).
Proof. unfold code_coef. by destruct (negb _). Qed.

(** X17.  Over exact rational arithmetic the methods are monotone in the
    integrand.  With [a <= b],
    [n >= 1] and [f x <= g x] for every [x] in [[a, b]], the result for [f]
    is at most the result for [g]: for the rectangle method in modes left,
    right and mid, in mode "random" on the same draws when the random source
    answers inside its bounds, for the trapezoidal method and, for even [n],
    for Simpson's method. *)
Theorem integrate_monotone_in_integrand
    (uniform : nat -> Qc -> Qc -> Qc) (self : RectangleMethod)
    (a b : Qc) (n : Z) (f g : Qc -> Qc) (w : world) :
  a <= b -> (1 <= n)%Z ->
  (forall x, within a b x -> f x <= g x) ->
  mode self ∈ deterministic \/ in_bounds uniform ->
  let le_on (I : (Qc -> Qc) -> M Qc) :=
    exists vf vg : Qc,
      (I f w).1 = Return vf /\ (I g w).1 = Return vg /\ vf <= vg in
  le_on (RectangleMethod_integrate uniform self a b n)
  /\ le_on (TrapezoidalMethod_integrate a b n)
  /\ (Z.even n = true -> le_on (SimpsonMethod_integrate a b n)).
Proof.
  intros Hab Hn Hfg Hmode le_on. unfold le_on. assert (Hn0 : n ≠ 0%Z) by lia.
  pose proof (dx_nonneg a b n Hab Hn) as Hdx.
  assert (Ha : f a <= g a) by (apply Hfg; Qc_to_Q; split; lra).
  assert (Hb : f b <= g b) by (apply Hfg; Qc_to_Q; split; lra).
  assert (Hgrid : forall i, i ∈ range 1 n ->
            f (a + Qc_of_Z i * ((b - a) / Qc_of_Z n))
            <= g (a + Qc_of_Z i * ((b - a) / Qc_of_Z n))).
  { intros i Hi%elem_of_seqZ. apply Hfg, grid_within; [done | done | lia]. }
  split; [|split; [|intros Heven]].
  - destruct (decide (mode self ∈ deterministic)) as [Hm | Hm];
      do 2 eexists.
    + rewrite !RectangleMethod_integrate_run by done.
      split; [reflexivity|]. split; [reflexivity|]. cbn [fst].
      apply sumQc_le. intros i Hi%elem_of_seqZ.
      apply Qcmult_le_mono_nonneg_r; [done|]. apply Hfg.
      apply (subinterval_within a b n i); [done | done | lia |].
      by apply code_point_within.
    + destruct Hmode as [? | Hu]; [done|].
      rewrite !RectangleMethod_integrate_random_run by done.
      split; [reflexivity|]. split; [reflexivity|]. cbn [fst].
      apply sumQc_le. intros x Hx.
      apply Qcmult_le_mono_nonneg_r; [done|]. apply Hfg. revert x Hx.
      apply Forall_forall, random_points_within; [done | done |].
      intros i x Hi%elem_of_seqZ.
      apply (subinterval_within a b n i); [done | done | lia].
  - do 2 eexists. rewrite !TrapezoidalMethod_integrate_run by done.
    split; [reflexivity|]. split; [reflexivity|]. cbn [fst].
    apply Qcmult_le_mono_nonneg_r; [done|].
    pose proof (sumQc_le _ _ _ Hgrid) as Hsum. Qc_to_Q. lra.
  - do 2 eexists. rewrite !SimpsonMethod_integrate_run by done.
    split; [reflexivity|]. split; [reflexivity|]. cbn [fst].
    unfold Qcdiv. apply Qcmult_le_mono_nonneg_r; [done|].
    apply Qcmult_le_mono_nonneg_r; [done|].
    assert (Hsum :
      sumQc ((fun i => Qc_of_Z (code_coef i)
                       * f (a + Qc_of_Z i * ((b - a) * / Qc_of_Z n)))
               <$> range 1 n)
      <= sumQc ((fun i => Qc_of_Z (code_coef i)
                          * g (a + Qc_of_Z i * ((b - a) * / Qc_of_Z n)))
                  <$> range 1 n)).
    { apply sumQc_le. intros i Hi.
      apply Qcmult_le_mono_nonneg_l; [apply code_coef_nonneg | by apply Hgrid]. }
    Qc_to_Q. lra.
Qed.

Lemma integrate_monotone_in_integrand_witness :
  let le_on (I : (Qc -> Qc) -> M Qc) :=
    exists vf vg : Qc,
      (I (fun _ => 1) w0).1 = Return vf /\ (I sq_plus_one w0).1 = Return vg
      /\ vf <= vg in
  le_on (RectangleMethod_integrate u0 {| mode := "random" |} 0 1 2)
  /\ le_on (TrapezoidalMethod_integrate 0 1 2)
  /\ le_on (SimpsonMethod_integrate 0 1 2).
Proof.
  destruct (integrate_monotone_in_integrand u0 {| mode := "random" |}
              0 1 2 (fun _ => 1) sq_plus_one w0) as [Hrect [Htrap Hsimpson]];
    [discriminate | lia | | right; apply u0_in_bounds |].
  - intros x [H0x _]. unfold sq_plus_one.
    rewrite <- (Qcplus_0_l 1) at 1. apply Qcplus_le_compat; [|apply Qcle_refl].
    assert (H : 0 <= x) by exact H0x. by apply Qcmult_nonneg_nonneg.
  - split; [exact Hrect | split; [exact Htrap | exact (Hsimpson eq_refl)]].
Defined.

(** * The binary64 embedding

    The same program on doubles.  [Z2F] rounds an integer to the nearest
    double; the arithmetic is that of the primitive binary64 operations. *)

Module Binary64.

Import PrimFloat.
Local Open Scope Z_scope.
Local Open Scope float_scope.

Abbreviation float := PrimFloat.float.

(** ** Exceptions, outcomes and the world *)

Inductive exn : Type :=
  | AssertionError
  | ValueError (msg : string)
  | ZeroDivisionError
  | OverflowError.

Inductive outcome (A : Type) : Type :=
  | Return (v : A)
  | Raise (e : exn).
Arguments Return {A} v.
Arguments Raise {A} e.

Record world : Type := World {
  calls : list float;   (* arguments the integrand was called on, oldest first *)
  drawn : nat           (* draws taken from the random source so far *)
}.

Definition M (A : Type) : Type := world -> outcome A * world.

Definition ret {A} (v : A) : M A := fun w => (Return v, w).

Definition raise {A} (e : exn) : M A := fun w => (Raise e, w).

Definition bind {A B} (c : M A) (k : A -> M B) : M B :=
  fun w =>
    match c w with
    | (Return v, w') => k v w'
    | (Raise e, w') => (Raise e, w')
    end.

(** An operation that raises or returns without touching the world. *)
Definition lift {A} (o : outcome A) : M A := fun w => (o, w).

Declare Scope py_scope.
Notation "x <- c ;; k" := (bind c (fun x => k))
  (at level 100, c at next level, right associativity) : py_scope.
Local Open Scope py_scope.

(** ** Numbers *)

(** The two kinds of float a bound can be: Python's built-in [float] and
    [numpy.float64], a subclass of it.  They hold the same binary64 values
    and differ in what [/] does with a zero divisor and in how an [int]
    operand is converted. *)
Inductive kind : Type := Builtin | Numpy.

(** What numpy does and is not in this repository: the value of each call of
    [np.random.uniform] (which may raise), and what a [numpy.float64]
    operation makes of a Python [int] outside the 64-bit range (a float, or
    [None] for [OverflowError]).  Nothing is assumed about either. *)
Record runtime : Type := {
  uniform : nat -> float -> float -> outcome float;
  big_int : Z -> option float
}.

(** The binary64 value nearest to an integer, ties to even. *)
Definition Z2F (z : Z) : float :=
  FloatOps.SF2Prim
    (SpecFloat.binary_normalize FloatOps.prec FloatOps.emax z 0 false).

(** The least integer that rounds to [2^1024], which binary64 does not hold. *)
Definition int_max : Z := 2 ^ 1024 - 2 ^ 970.

(** [float(z)] as the built-in arithmetic does it: [OverflowError] when the
    rounded value is out of range. *)
Definition float_of_int (z : Z) : outcome float :=
  if (Z.abs z <? int_max)%Z then Return (Z2F z) else Raise OverflowError.

(** The conversion of an [int] operand of a [numpy.float64] operation. *)
Definition np_float_of_int (rt : runtime) (z : Z) : outcome float :=
  if ((- 2 ^ 63 <=? z) && (z <? 2 ^ 63))%Z then Return (Z2F z)
  else match big_int rt z with
       | Some x => Return x
       | None => Raise OverflowError
       end.

Definition convert (rt : runtime) (k : kind) (z : Z) : outcome float :=
  match k with
  | Builtin => float_of_int z
  | Numpy => np_float_of_int rt z
  end.

(** [x / n] for a float [x] of kind [k] and an int [n].  The divisor is
    converted first.  A built-in float then raises [ZeroDivisionError] when
    the divisor is zero, which a converted int is exactly when the int is 0;
    a [numpy.float64] only warns and divides, giving an infinity or a NaN. *)
Definition truediv (rt : runtime) (k : kind) (x : float) (n : Z) : M float :=
  nf <- lift (convert rt k n) ;;
  match k with
  | Builtin => if (n =? 0)%Z then raise ZeroDivisionError else ret (x / nf)
  | Numpy => ret (x / nf)
  end.

(** [i * x] for an int [i] and a float [x] of kind [k]. *)
Definition int_times (rt : runtime) (k : kind) (i : Z) (x : float) : M float :=
  nf <- lift (convert rt k i) ;; ret (nf * x).

(** [f(x)]: the integrand is applied and the call is recorded. *)
Definition call (f : float -> float) (x : float) : M float :=
  fun w => (Return (f x), World (calls w ++ [x]) (drawn w)).

(** [np.random.uniform(lo, hi)]: a draw is counted when a value comes back. *)
Definition np_random_uniform (rt : runtime) (lo hi : float) : M float :=
  fun w =>
    match uniform rt (drawn w) lo hi with
    | Return v => (Return v, World (calls w) (S (drawn w)))
    | Raise e => (Raise e, w)
    end.

(** [for i in l: total = body(i, total)], returning the last [total]. *)
Fixpoint for_range (l : list Z) (body : Z -> float -> M float) (total : float)
    : M float :=
  match l with
  | [] => ret total
  | i :: l' => t <- body i total ;; for_range l' body t
  end.

(** ** RectangleMethod *)

(** [RectangleMethod.__init__]: [assert mode in (...)], then [self.mode = mode]. *)
Definition RectangleMethod_init (mode : string) : M RectangleMethod :=
  if bool_decide (mode ∈ modes) then ret {| mode := mode |}
  else raise AssertionError.

(** The evaluation point of the subinterval that starts at [x0]. *)
Definition rectangle_point (rt : runtime) (self : RectangleMethod) (k : kind)
    (x0 dx : float) : M float :=
  let x1 := x0 + dx in
  if String.eqb (mode self) "left" then ret x0
  else if String.eqb (mode self) "right" then ret x1
  else if String.eqb (mode self) "mid" then truediv rt k (x0 + x1) 2
  else np_random_uniform rt x0 x1.

(** [integrate(a, b, n, f)]; [k] is [Numpy] when a bound is a
    [numpy.float64] and [Builtin] when both are built-in floats. *)
Definition RectangleMethod_integrate (rt : runtime) (self : RectangleMethod)
    (k : kind) (a b : float) (n : Z) (f : float -> float) : M float :=
  dx <- truediv rt k (b - a) n ;;
  for_range (range 0 n)
    (fun i total =>
       idx <- int_times rt k i dx ;;
       let x0 := a + idx in
       xi <- rectangle_point rt self k x0 dx ;;
       y <- call f xi ;;
       ret (total + y * dx))
    0.

(** ** TrapezoidalMethod *)

Definition TrapezoidalMethod_integrate (rt : runtime)
    (k : kind) (a b : float) (n : Z) (f : float -> float) : M float :=
  dx <- truediv rt k (b - a) n ;;
  fa <- call f a ;;
  fb <- call f b ;;
  total <- for_range (range 1 n)
             (fun i total =>
                idx <- int_times rt k i dx ;;
                y <- call f (a + idx) ;;
                ret (total + y))
             (0.5 * (fa + fb)) ;;
  ret (total * dx).

(** ** SimpsonMethod *)

(** In [coef * f(...)] the int [coef] is 4 or 2, which either kind of float
    operand converts to the same value; [total * dx / 3] likewise. *)
Definition SimpsonMethod_integrate (rt : runtime)
    (k : kind) (a b : float) (n : Z) (f : float -> float) : M float :=
  if negb (n `mod` 2 =? 0)%Z then raise (ValueError Simpson_msg)
  else
    dx <- truediv rt k (b - a) n ;;
    fa <- call f a ;;
    fb <- call f b ;;
    total <- for_range (range 1 n)
               (fun i total =>
                  let coef := if negb (i `mod` 2 =? 0)%Z then 4%Z else 2%Z in
                  idx <- int_times rt k i dx ;;
                  y <- call f (a + idx) ;;
                  cy <- int_times rt k coef y ;;
                  ret (total + cy))
               (fa + fb) ;;
    truediv rt k (total * dx) 3.

(** ** Concrete inputs *)

Definition w0 : world := World [] 0.

(** A runtime whose random source answers with the lower bound and whose
    conversion of a large int raises. *)
Definition rt0 : runtime :=
  {| uniform := fun _ lo _ => Return lo; big_int := fun _ => None |}.

Definition sq_plus_one (x : float) : float := x * x + 1.

Definition cube (x : float) : float := x * x * x.

(** ** Vocabulary of the statements *)

(** The world after the integrand has been called on [pts], in order. *)
Definition logged (pts : list float) (w : world) : world :=
  World (calls w ++ pts) (drawn w).

Definition returns {A} (r : outcome A * world) : Prop := exists v, r.1 = Return v.

Definition raised {A} (r : outcome A * world) : option exn :=
  match r.1 with Return _ => None | Raise e => Some e end.

(** [converts k z]: the int [z] is one that an operation on a float of kind
    [k] converts to the nearest binary64 value. *)
Definition converts (k : kind) (z : Z) : Prop :=
  match k with
  | Builtin => (Z.abs z < int_max)%Z
  | Numpy => (- 2 ^ 63 <= z < 2 ^ 63)%Z
  end.


(** The value of draw number [j]. *)
Definition draw (rt : runtime) (j : nat) (lo hi : float) : float :=
  match uniform rt j lo hi with Return v => v | Raise _ => 0 end.

(** ** The loops in closed form, every operation rounded to binary64 *)

(** The left end of subinterval [i]. *)
Definition grid (a dx : float) (i : Z) : float := a + Z2F i * dx.

(** The evaluation point of modes left, right and mid. *)
Definition code_point (m : string) (x0 dx : float) : float :=
  if String.eqb m "left" then x0
  else if String.eqb m "right" then x0 + dx
  else (x0 + (x0 + dx)) / 2.

Definition code_coef (i : Z) : Z := if negb (i `mod` 2 =? 0)%Z then 4%Z else 2%Z.

(** The accumulations, from the start value and in the order of the index. *)
Definition Rectangle_fold (m : string) (a b : float) (n : Z)
    (f : float -> float) : float :=
  let dx := (b - a) / Z2F n in
  fold_left (fun total i => total + f (code_point m (grid a dx i) dx) * dx)
    (range 0 n) 0.

Definition Trapezoidal_fold (a b : float) (n : Z) (f : float -> float) : float :=
  let dx := (b - a) / Z2F n in
  fold_left (fun total i => total + f (grid a dx i)) (range 1 n)
    (0.5 * (f a + f b))
  * dx.

Definition Simpson_fold (a b : float) (n : Z) (f : float -> float) : float :=
  let dx := (b - a) / Z2F n in
  fold_left (fun total i => total + Z2F (code_coef i) * f (grid a dx i))
    (range 1 n) (f a + f b)
  * dx / 3.

(** The points mode "random" draws for the subintervals [l], the first draw
    being draw number [j] of the process. *)
Fixpoint random_points (rt : runtime) (a dx : float) (j : nat) (l : list Z)
    : list float :=
  match l with
  | [] => []
  | i :: l' =>
      draw rt j (grid a dx i) (grid a dx i + dx)
      :: random_points rt a dx (S j) l'
  end.

(** The points the trapezoidal and Simpson methods call the integrand on. *)
Definition trapezoid_points (a b : float) (n : Z) : list float :=
  let dx := (b - a) / Z2F n in
  [a; b] ++ (grid a dx <$> range 1 n).

(** ** Generic facts *)

Lemma logged_nil_b64 w : logged [] w = w.
Proof. destruct w; unfold logged; simpl. by rewrite app_nil_r. Qed.

Lemma logged_logged_b64 p1 p2 w : logged p2 (logged p1 w) = logged (p1 ++ p2) w.
Proof. unfold logged; simpl. by rewrite app_assoc. Qed.

Lemma call_run_b64 f x w : call f x w = (Return (f x), logged [x] w).
Proof. reflexivity. Qed.

Lemma bind_Return_b64 {A B} (c : M A) (k : A -> M B) w v w' :
  c w = (Return v, w') -> bind c k w = k v w'.
Proof. unfold bind. by intros ->. Qed.

Lemma bind_Raise_b64 {A B} (c : M A) (k : A -> M B) w e w' :
  c w = (Raise e, w') -> bind c k w = (Raise e, w').
Proof. unfold bind. by intros ->. Qed.

Lemma int_max_pos : (0 < int_max)%Z.
Proof. reflexivity. Qed.

Lemma convert_converts rt k z : converts k z -> convert rt k z = Return (Z2F z).
Proof.
  destruct k; cbn [converts convert]; intros H.
  - unfold float_of_int. by rewrite (proj2 (Z.ltb_lt _ _) H).
  - unfold np_float_of_int.
    rewrite (proj2 (Z.leb_le _ _) (proj1 H)), (proj2 (Z.ltb_lt _ _) (proj2 H)).
    reflexivity.
Qed.

Lemma converts_index k i n : converts k n -> (0 <= i < n)%Z -> converts k i.
Proof. destruct k; cbn [converts]; lia. Qed.

Lemma converts_small k z : (Z.abs z < 2 ^ 63)%Z -> converts k z.
Proof.
  assert (H : (2 ^ 63 < int_max)%Z) by reflexivity.
  destruct k; cbn [converts]; lia.
Qed.

Lemma truediv_run rt k x n w :
  converts k n -> n ≠ 0%Z -> truediv rt k x n w = (Return (x / Z2F n), w).
Proof.
  intros Hc Hn. unfold truediv.
  erewrite bind_Return_b64 by (unfold lift; by rewrite convert_converts).
  destruct k; [|done]. by rewrite (proj2 (Z.eqb_neq _ _) Hn).
Qed.

Lemma truediv_two rt k x w : truediv rt k x 2 w = (Return (x / 2), w).
Proof. rewrite truediv_run; [done | by apply converts_small | done]. Qed.

Lemma truediv_three rt k x w : truediv rt k x 3 w = (Return (x / 3), w).
Proof. rewrite truediv_run; [done | by apply converts_small | done]. Qed.

Lemma int_times_run rt k i x w :
  converts k i -> int_times rt k i x w = (Return (Z2F i * x), w).
Proof.
  intros Hc. unfold int_times.
  by erewrite bind_Return_b64 by (unfold lift; by rewrite convert_converts).
Qed.

Lemma converts_coef k i : converts k (code_coef i).
Proof. apply converts_small. unfold code_coef. by destruct (negb _). Qed.

(** A loop whose body calls the integrand once, on [pt i], and updates the
    total by [step], returns the left fold of [step] and has called the
    integrand on the points [pt i] in the order of the loop. *)
Lemma for_range_fold (l : list Z) (body : Z -> float -> M float)
    (step : float -> Z -> float) (pt : Z -> float) :
  (forall i t w, i ∈ l -> body i t w = (Return (step t i), logged [pt i] w)) ->
  forall total w,
    for_range l body total w
    = (Return (fold_left step l total), logged (pt <$> l) w).
Proof.
  induction l as [|i l IH]; intros Hbody total w; cbn [for_range fold_left].
  - unfold ret. by rewrite fmap_nil, logged_nil_b64.
  - erewrite bind_Return_b64 by (apply Hbody; left).
    rewrite IH by (intros; apply Hbody; by right).
    by rewrite logged_logged_b64, fmap_cons.
Qed.

Lemma in_range lo n i : i ∈ range lo n -> (lo <= i < n)%Z.
Proof. unfold range. rewrite elem_of_seqZ. lia. Qed.

(** ** What each method computes *)

Lemma rectangle_point_run_b64 rt self k x0 dx w :
  mode self ∈ deterministic ->
  rectangle_point rt self k x0 dx w
  = (Return (code_point (mode self) x0 dx), w).
Proof.
  intros Hm. unfold rectangle_point, code_point.
  destruct (deterministic_cases _ Hm) as [-> | [-> | ->]];
    cbn [String.eqb Ascii.eqb Bool.eqb]; cbv iota;
    first [reflexivity | apply truediv_two].
Qed.


Lemma RectangleMethod_integrate_run_b64 rt self k a b n f w :
  mode self ∈ deterministic -> converts k n -> n ≠ 0%Z ->
  let dx := (b - a) / Z2F n in
  RectangleMethod_integrate rt self k a b n f w
  = (Return (Rectangle_fold (mode self) a b n f),
     logged ((fun i => code_point (mode self) (grid a dx i) dx) <$> range 0 n) w).
Proof.
  intros Hm Hc Hn dx. unfold RectangleMethod_integrate, Rectangle_fold.
  erewrite bind_Return_b64 by (by apply truediv_run). fold dx.
  apply for_range_fold. intros i t w' Hi%in_range.
  erewrite bind_Return_b64
    by (apply int_times_run, (converts_index k i n); [done | lia]).
  erewrite bind_Return_b64 by (by apply rectangle_point_run_b64).
  reflexivity.
Qed.

Lemma RectangleMethod_integrate_empty rt self k a b n f w :
  converts k n -> (n < 0)%Z ->
  RectangleMethod_integrate rt self k a b n f w = (Return 0, w).
Proof.
  intros Hc Hn. unfold RectangleMethod_integrate.
  erewrite bind_Return_b64 by (apply truediv_run; [done | lia]).
  replace (range 0 n) with (@nil Z) by (symmetry; apply seqZ_nil; lia).
  reflexivity.
Qed.



Lemma TrapezoidalMethod_integrate_run_b64 rt k a b n f w :
  converts k n -> n ≠ 0%Z ->
  TrapezoidalMethod_integrate rt k a b n f w
  = (Return (Trapezoidal_fold a b n f), logged (trapezoid_points a b n) w).
Proof.
  intros Hc Hn.
  unfold TrapezoidalMethod_integrate, Trapezoidal_fold, trapezoid_points.
  erewrite bind_Return_b64 by (by apply truediv_run).
  do 2 (erewrite bind_Return_b64 by apply call_run_b64).
  erewrite bind_Return_b64.
  2:{ apply (for_range_fold _ _
               (fun total i => total + f (grid a ((b - a) / Z2F n) i))
               (grid a ((b - a) / Z2F n))).
      intros i t w' Hi%in_range.
      erewrite bind_Return_b64
        by (apply int_times_run, (converts_index k i n); [done | lia]).
      reflexivity. }
  unfold ret. by rewrite !logged_logged_b64.
Qed.

Lemma SimpsonMethod_integrate_odd_b64 rt k a b n f w :
  Z.odd n = true ->
  SimpsonMethod_integrate rt k a b n f w = (Raise (ValueError Simpson_msg), w).
Proof.
  intros Hodd. unfold SimpsonMethod_integrate.
  rewrite Zmod_odd, Hodd. reflexivity.
Qed.

Lemma SimpsonMethod_integrate_run_b64 rt k a b n f w :
  Z.even n = true -> converts k n -> n ≠ 0%Z ->
  SimpsonMethod_integrate rt k a b n f w
  = (Return (Simpson_fold a b n f), logged (trapezoid_points a b n) w).
Proof.
  intros Heven Hc Hn.
  unfold SimpsonMethod_integrate, Simpson_fold, trapezoid_points.
  rewrite Zmod_even, Heven. cbn [Z.eqb negb].
  erewrite bind_Return_b64 by (by apply truediv_run).
  do 2 (erewrite bind_Return_b64 by apply call_run_b64).
  erewrite bind_Return_b64.
  2:{ apply (for_range_fold _ _
               (fun total i =>
                  total + Z2F (code_coef i) * f (grid a ((b - a) / Z2F n) i))
               (grid a ((b - a) / Z2F n))).
      intros i t w' Hi%in_range. cbv zeta.
      erewrite bind_Return_b64
        by (apply int_times_run, (converts_index k i n); [done | lia]).
      erewrite bind_Return_b64 by apply call_run_b64.
      erewrite bind_Return_b64 by (apply int_times_run, converts_coef).
      reflexivity. }
  rewrite truediv_three. by rewrite !logged_logged_b64.
Qed.

(** ** The embedding on concrete inputs *)

(** [int_max] is where the conversion of an int starts to overflow. *)
Example Z2F_below_int_max : Z2F (int_max - 1) = 0x1.fffffffffffffp+1023.
Proof. reflexivity. Qed.

Example Z2F_int_max : Z2F int_max = infinity.
Proof. reflexivity. Qed.

Example rectangle_left_identity_rounded :
  (RectangleMethod_integrate rt0 {| mode := "left" |} Builtin 0 1 10
     (fun x => x) w0).1
  = Return 0x1.ccccccccccccep-2.
Proof. vm_compute. reflexivity. Qed.

(** In mode right the last point, [x0 + dx] rounded, can lie beyond [b]. *)
Example rectangle_right_last_point :
  last (calls (RectangleMethod_integrate rt0 {| mode := "right" |}
                 Builtin 0 3 15 sq_plus_one w0).2)
  = Some 0x1.8000000000001p+1.
Proof. vm_compute. reflexivity. Qed.

Example rectangle_overflow :
  RectangleMethod_integrate rt0 {| mode := "left" |} Builtin 0 1 (- 10 ^ 400)
    sq_plus_one w0
  = (Raise OverflowError, w0).
Proof. vm_compute. reflexivity. Qed.

(** ** Computations that never raise [ValueError] *)

Definition quiet {A} (c : M A) : Prop :=
  forall w msg, (c w).1 ≠ Raise (ValueError msg).

Lemma quiet_ret {A} (v : A) : quiet (ret v).
Proof. intros w msg. discriminate. Qed.

Lemma quiet_bind {A B} (c : M A) (k : A -> M B) :
  quiet c -> (forall v, quiet (k v)) -> quiet (bind c k).
Proof.
  intros Hc Hk w msg. unfold bind. specialize (Hc w msg).
  destruct (c w) as [[v | e] w']; [apply Hk|].
  cbn [fst] in *. intros [= ->]. by apply Hc.
Qed.

Lemma quiet_convert rt k z : quiet (lift (convert rt k z)).
Proof.
  intros w msg. unfold lift. cbn [fst].
  destruct k; cbn [convert]; unfold float_of_int, np_float_of_int;
    repeat (first [destruct (_ <? _)%Z | destruct (_ && _) | destruct (big_int _ _)]);
    discriminate.
Qed.

Lemma quiet_truediv rt k x n : quiet (truediv rt k x n).
Proof.
  apply quiet_bind; [apply quiet_convert|]. intros nf.
  destruct k; [destruct (n =? 0)%Z|]; intros w msg; discriminate.
Qed.

Lemma quiet_int_times rt k i x : quiet (int_times rt k i x).
Proof.
  apply quiet_bind; [apply quiet_convert|]. intros nf. apply quiet_ret.
Qed.

Lemma quiet_call f x : quiet (call f x).
Proof. intros w msg. discriminate. Qed.

Lemma quiet_for_range l body total :
  (forall i t, quiet (body i t)) -> quiet (for_range l body total).
Proof.
  intros Hbody. revert total.
  induction l as [|i l IH]; intros total; cbn [for_range].
  - apply quiet_ret.
  - apply quiet_bind; [apply Hbody | apply IH].
Qed.

Lemma SimpsonMethod_integrate_even_quiet rt k a b n f :
  Z.even n = true -> quiet (SimpsonMethod_integrate rt k a b n f).
Proof.
  intros Heven. unfold SimpsonMethod_integrate.
  rewrite Zmod_even, Heven. cbn [Z.eqb negb].
  apply quiet_bind; [apply quiet_truediv|]. intros dx.
  apply quiet_bind; [apply quiet_call|]. intros fa.
  apply quiet_bind; [apply quiet_call|]. intros fb.
  apply quiet_bind; [|intros total; apply quiet_truediv].
  apply quiet_for_range. intros i t. cbv zeta.
  apply quiet_bind; [apply quiet_int_times|]. intros idx.
  apply quiet_bind; [apply quiet_call|]. intros y.
  apply quiet_bind; [apply quiet_int_times|]. intros cy. apply quiet_ret.
Qed.

(** The error, if any, of computing [dx] from built-in floats. *)
Definition dx_error (n : Z) : option exn :=
  if (int_max <=? Z.abs n)%Z then Some OverflowError
  else if (n =? 0)%Z then Some ZeroDivisionError
  else None.

Lemma truediv_builtin_error rt x n w e :
  dx_error n = Some e -> truediv rt Builtin x n w = (Raise e, w).
Proof.
  unfold dx_error, truediv. cbn [convert]. unfold float_of_int.
  destruct (Z.leb_spec int_max (Z.abs n)) as [Hbig | Hsmall].
  - intros [= <-]. rewrite (proj2 (Z.ltb_ge _ _) Hbig). reflexivity.
  - rewrite (proj2 (Z.ltb_lt _ _) Hsmall).
    destruct (n =? 0)%Z; [intros [= <-]; reflexivity | discriminate].
Qed.

Lemma dx_error_None n : dx_error n = None -> converts Builtin n /\ n ≠ 0%Z.
Proof.
  unfold dx_error. cbn [converts].
  destruct (Z.leb_spec int_max (Z.abs n)); [discriminate|].
  destruct (Z.eqb_spec n 0); [discriminate|]. done.
Qed.

(** ** Properties of the binary64 embedding *)

Lemma RectangleMethod_init_run m w :
  m ∈ modes -> RectangleMethod_init m w = (Return {| mode := m |}, w).
Proof. intros Hm. unfold RectangleMethod_init. by rewrite bool_decide_eq_true_2. Qed.

Lemma deterministic_modes m : m ∈ deterministic -> m ∈ modes.
Proof.
  intros Hm. destruct (deterministic_cases _ Hm) as [-> | [-> | ->]];
    unfold modes; repeat constructor.
Qed.

(** The rectangle method in modes left, right and mid returns the rounded
    accumulation. *)
Lemma RectangleMethod_integrate_fold rt k m a b n f w :
  m ∈ deterministic -> (1 <= n)%Z -> converts k n ->
  ((self <- RectangleMethod_init m ;;
    RectangleMethod_integrate rt self k a b n f) w).1
  = Return (Rectangle_fold m a b n f).
Proof.
  intros Hm Hn Hc.
  erewrite bind_Return_b64 by (by apply RectangleMethod_init_run, deterministic_modes).
  by rewrite RectangleMethod_integrate_run_b64 by (simpl; first [done | lia]).
Qed.

(** C4, amended.  For odd [n] the call raises [ValueError] with the message
    "For the Simpson method, n must be even" before anything else happens
    and returns nothing; for even [n] the parity check passes: no
    [ValueError] is raised, and for [n = 4] the call returns a value. *)
Theorem SimpsonMethod_parity_check
    (rt : runtime) (k : kind) (a b : float) (n : Z) (f : float -> float)
    (w : world) :
  (Z.odd n = true ->
     SimpsonMethod_integrate rt k a b n f w
     = (Raise (ValueError "For the Simpson method, n must be even"), w)
     /\ ¬ returns (SimpsonMethod_integrate rt k a b n f w))
  /\ (Z.even n = true ->
      forall msg, (SimpsonMethod_integrate rt k a b n f w).1
                  ≠ Raise (ValueError msg))
  /\ returns (SimpsonMethod_integrate rt k a b 4 f w).
Proof.
  split; [|split].
  - intros Hodd. rewrite SimpsonMethod_integrate_odd_b64 by done.
    split; [done|]. by intros [v Hv].
  - intros Heven msg. by apply SimpsonMethod_integrate_even_quiet.
  - rewrite SimpsonMethod_integrate_run_b64
      by (first [reflexivity | by apply converts_small | done]).
    by eexists.
Qed.

Lemma SimpsonMethod_parity_check_witness :
  (SimpsonMethod_integrate rt0 Builtin 0 1 3 sq_plus_one w0
   = (Raise (ValueError "For the Simpson method, n must be even"), w0)
   /\ ¬ returns (SimpsonMethod_integrate rt0 Builtin 0 1 3 sq_plus_one w0))
  /\ (forall msg, (SimpsonMethod_integrate rt0 Builtin 0 1 (2 ^ 1024) sq_plus_one
                     w0).1 ≠ Raise (ValueError msg))
  /\ returns (SimpsonMethod_integrate rt0 Builtin 0 1 4 sq_plus_one w0).
Proof.
  split; [|split].
  - apply (SimpsonMethod_parity_check rt0 Builtin 0 1 3 sq_plus_one w0).
    reflexivity.
  - apply (SimpsonMethod_parity_check rt0 Builtin 0 1 (2 ^ 1024) sq_plus_one w0).
    reflexivity.
  - apply (SimpsonMethod_parity_check rt0 Builtin 0 1 3 sq_plus_one w0).
Defined.

(** C7, as the specification words it, fails when a bound is a
    [numpy.float64]: with [n = 0] the division only warns, the rectangle
    method returns 0.0 and the trapezoidal method, after calling the
    integrand on both bounds, returns infinity. *)
Lemma zero_partitions_numpy_counterexample :
  RectangleMethod_integrate rt0 {| mode := "left" |} Numpy 0 1 0 sq_plus_one w0
  = (Return 0, w0)
  /\ TrapezoidalMethod_integrate rt0 Numpy 0 1 0 sq_plus_one w0
     = (Return infinity, World [0; 1] 0).
Proof. split; reflexivity. Qed.

(** C7, amended.  With [n = 0] and bounds that are built-in floats, each of
    the three methods, the rectangle method in any mode, raises
    [ZeroDivisionError] when it computes [dx]: nothing is returned, the
    integrand has not been called and nothing was drawn.  When a bound is a
    [numpy.float64] no method raises: [dx] is the IEEE quotient
    [(b - a) / 0.0], the rectangle method returns 0.0 without calling the
    integrand, and the trapezoidal and Simpson methods call it on [a] and
    [b] and return [0.5 * (f(a) + f(b)) * dx] and [(f(a) + f(b)) * dx / 3]. *)
Theorem integrate_zero_partitions_by_kind
    (rt : runtime) (self : RectangleMethod) (a b : float)
    (f : float -> float) (w : world) :
  (RectangleMethod_integrate rt self Builtin a b 0 f w
   = (Raise ZeroDivisionError, w)
   /\ TrapezoidalMethod_integrate rt Builtin a b 0 f w
      = (Raise ZeroDivisionError, w)
   /\ SimpsonMethod_integrate rt Builtin a b 0 f w
      = (Raise ZeroDivisionError, w))
  /\ (RectangleMethod_integrate rt self Numpy a b 0 f w = (Return 0, w)
      /\ TrapezoidalMethod_integrate rt Numpy a b 0 f w
         = (Return (0.5 * (f a + f b) * ((b - a) / 0)), logged [a; b] w)
      /\ SimpsonMethod_integrate rt Numpy a b 0 f w
         = (Return ((f a + f b) * ((b - a) / 0) / 3), logged [a; b] w)).
Proof.
  repeat split; try reflexivity;
    rewrite <- (logged_logged_b64 [a] [b]); reflexivity.
Qed.

(** ** Further properties of the binary64 embedding *)




(** X2.  In modes left, right and mid with [n >= 1] an int that converts,
    [integrate] calls the integrand exactly [n] times, once per subinterval
    in increasing order of the index, at the rounded point of that mode, and
    draws nothing from the random source. *)
Theorem RectangleMethod_call_record
    (rt : runtime) (k : kind) (m : string)
    (a b : float) (n : Z) (f : float -> float) (w : world) :
  m ∈ deterministic -> (1 <= n)%Z -> converts k n ->
  let r := RectangleMethod_integrate rt {| mode := m |} k a b n f w in
  let dx := (b - a) / Z2F n in
  calls r.2 = calls w ++ ((fun i => code_point m (grid a dx i) dx) <$> range 0 n)
  /\ length (calls r.2) = (length (calls w) + Z.to_nat n)%nat
  /\ drawn r.2 = drawn w.
Proof.
  intros Hm Hn Hc r dx. unfold r.
  rewrite RectangleMethod_integrate_run_b64 by (simpl; first [done | lia]).
  cbn [snd logged calls drawn mode]. repeat split.
  rewrite length_app, length_fmap. unfold range. rewrite length_seqZ.
  do 2 f_equal. lia.
Qed.

Lemma RectangleMethod_call_record_witness :
  let r := RectangleMethod_integrate rt0 {| mode := "right" |} Builtin 0 3 15
             sq_plus_one w0 in
  let dx := (3 - 0) / Z2F 15 in
  calls r.2 = calls w0 ++ ((fun i => code_point "right" (grid 0 dx i) dx)
                             <$> range 0 15)
  /\ length (calls r.2) = (length (calls w0) + Z.to_nat 15)%nat
  /\ drawn r.2 = drawn w0.
Proof.
  apply (RectangleMethod_call_record rt0 Builtin "right" 0 3 15 sq_plus_one w0);
    [repeat constructor | lia | by apply converts_small].
Defined.

(** X3.  For [n >= 1] an int that converts, the trapezoidal method calls the
    integrand exactly [n + 1] times: on [a], on [b], then on the rounded
    [a + i*dx] for [i = 1 .. n-1]; for even [n] Simpson's method makes the
    same calls in the same order.  Neither draws. *)
Theorem trapezoid_Simpson_call_record
    (rt : runtime) (k : kind) (a b : float) (n : Z) (f : float -> float)
    (w : world) :
  (1 <= n)%Z -> converts k n ->
  let dx := (b - a) / Z2F n in
  let pts := a :: b :: (grid a dx <$> range 1 n) in
  length pts = Z.to_nat (n + 1)
  /\ (TrapezoidalMethod_integrate rt k a b n f w).2
     = World (calls w ++ pts) (drawn w)
  /\ (Z.even n = true ->
      (SimpsonMethod_integrate rt k a b n f w).2
      = World (calls w ++ pts) (drawn w)).
Proof.
  intros Hn Hc dx pts. split; [|split; [|intros Heven]].
  - unfold pts, range. cbn [length]. rewrite length_fmap, length_seqZ. lia.
  - by rewrite TrapezoidalMethod_integrate_run_b64 by (done || lia).
  - by rewrite SimpsonMethod_integrate_run_b64 by (done || lia).
Qed.

Lemma trapezoid_Simpson_call_record_witness :
  let dx := (1 - 0) / Z2F 2 in
  let pts := 0 :: 1 :: (grid 0 dx <$> range 1 2) in
  length pts = Z.to_nat (2 + 1)
  /\ (TrapezoidalMethod_integrate rt0 Builtin 0 1 2 sq_plus_one w0).2
     = World (calls w0 ++ pts) (drawn w0)
  /\ (SimpsonMethod_integrate rt0 Builtin 0 1 2 sq_plus_one w0).2
     = World (calls w0 ++ pts) (drawn w0).
Proof.
  destruct (trapezoid_Simpson_call_record rt0 Builtin 0 1 2 sq_plus_one w0)
    as [Hlen [Htrap Hsimpson]]; [lia | by apply converts_small |].
  split; [exact Hlen | split; [exact Htrap | exact (Hsimpson eq_refl)]].
Defined.

(** X4.  The outcome for built-in float bounds.  Computing [dx] raises
    [OverflowError] when [|n| >= 2^1024 - 2^970] (the int does not convert to
    a float) and [ZeroDivisionError] when [n = 0], in both cases before the
    integrand is called; otherwise the call returns a value, a negative [n]
    included.  This holds for the rectangle method in modes left, right and
    mid and for the trapezoidal method; Simpson's method first raises
    [ValueError] for odd [n] and otherwise behaves the same. *)
Theorem integrate_outcome_builtin
    (rt : runtime) (self : RectangleMethod) (a b : float) (n : Z)
    (f : float -> float) (w : world) :
  let same_as_dx (r : outcome float * world) :=
    raised r = dx_error n /\ (dx_error n ≠ None -> r.2 = w) in
  (mode self ∈ deterministic ->
   same_as_dx (RectangleMethod_integrate rt self Builtin a b n f w))
  /\ same_as_dx (TrapezoidalMethod_integrate rt Builtin a b n f w)
  /\ (Z.even n = true ->
      same_as_dx (SimpsonMethod_integrate rt Builtin a b n f w))
  /\ (Z.odd n = true ->
      SimpsonMethod_integrate rt Builtin a b n f w
      = (Raise (ValueError Simpson_msg), w)).
Proof.
  intros same_as_dx. unfold same_as_dx.
  split; [intros Hm | split; [|split; [intros Heven | intros Hodd]]].
  - destruct (dx_error n) as [e|] eqn:He.
    + unfold RectangleMethod_integrate.
      erewrite bind_Raise_b64 by (by apply truediv_builtin_error). done.
    + destruct (dx_error_None n He) as [Hc Hn].
      rewrite RectangleMethod_integrate_run_b64 by done. done.
  - destruct (dx_error n) as [e|] eqn:He.
    + unfold TrapezoidalMethod_integrate.
      erewrite bind_Raise_b64 by (by apply truediv_builtin_error). done.
    + destruct (dx_error_None n He) as [Hc Hn].
      rewrite TrapezoidalMethod_integrate_run_b64 by done. done.
  - destruct (dx_error n) as [e|] eqn:He.
    + unfold SimpsonMethod_integrate. rewrite Zmod_even, Heven.
      cbn [Z.eqb negb].
      erewrite bind_Raise_b64 by (by apply truediv_builtin_error). done.
    + destruct (dx_error_None n He) as [Hc Hn].
      rewrite SimpsonMethod_integrate_run_b64 by done. done.
  - by apply SimpsonMethod_integrate_odd_b64.
Qed.

Lemma integrate_outcome_builtin_witness :
  (raised (RectangleMethod_integrate rt0 {| mode := "left" |} Builtin 0 1
             (- 10 ^ 400) sq_plus_one w0) = Some OverflowError)
  /\ raised (TrapezoidalMethod_integrate rt0 Builtin 0 1 (- 3) sq_plus_one w0)
     = None
  /\ raised (SimpsonMethod_integrate rt0 Builtin 0 1 0 sq_plus_one w0)
     = Some ZeroDivisionError
  /\ SimpsonMethod_integrate rt0 Builtin 0 1 3 sq_plus_one w0
     = (Raise (ValueError Simpson_msg), w0).
Proof.
  split; [|split; [|split]].
  - apply (integrate_outcome_builtin rt0 {| mode := "left" |} 0 1 (- 10 ^ 400)
             sq_plus_one w0). repeat constructor.
  - apply (integrate_outcome_builtin rt0 {| mode := "left" |} 0 1 (- 3)
             sq_plus_one w0).
  - apply (integrate_outcome_builtin rt0 {| mode := "left" |} 0 1 0
             sq_plus_one w0). reflexivity.
  - apply (integrate_outcome_builtin rt0 {| mode := "left" |} 0 1 3
             sq_plus_one w0). reflexivity.
Defined.

(** X5.  A negative [n] that converts makes the loops empty.  The rectangle
    method then returns 0.0 in every mode without calling the integrand or
    drawing; the trapezoidal method returns [0.5 * (f(a) + f(b)) * dx] and,
    for even [n], Simpson's method returns [(f(a) + f(b)) * dx / 3], with
    [dx = (b - a) / n] rounded, after calling the integrand on [a] and [b]
    only. *)
Theorem integrate_negative_partition_count
    (rt : runtime) (self : RectangleMethod) (k : kind) (a b : float) (n : Z)
    (f : float -> float) (w : world) :
  (n < 0)%Z -> converts k n ->
  let dx := (b - a) / Z2F n in
  RectangleMethod_integrate rt self k a b n f w = (Return 0, w)
  /\ TrapezoidalMethod_integrate rt k a b n f w
     = (Return (0.5 * (f a + f b) * dx), logged [a; b] w)
  /\ (Z.even n = true ->
      SimpsonMethod_integrate rt k a b n f w
      = (Return ((f a + f b) * dx / 3), logged [a; b] w)).
Proof.
  intros Hn Hc dx. assert (Hn0 : n ≠ 0%Z) by lia.
  assert (H1 : range 1 n = []) by (apply seqZ_nil; lia).
  split; [|split; [|intros Heven]].
  - by apply RectangleMethod_integrate_empty.
  - rewrite TrapezoidalMethod_integrate_run_b64 by done.
    unfold Trapezoidal_fold, trapezoid_points.
    by rewrite H1, fmap_nil, app_nil_r.
  - rewrite SimpsonMethod_integrate_run_b64 by done.
    unfold Simpson_fold, trapezoid_points.
    by rewrite H1, fmap_nil, app_nil_r.
Qed.

Lemma integrate_negative_partition_count_witness :
  let dx := (1 - 0) / Z2F (- 2) in
  RectangleMethod_integrate rt0 {| mode := "random" |} Numpy 0 1 (- 2)
    sq_plus_one w0 = (Return 0, w0)
  /\ TrapezoidalMethod_integrate rt0 Numpy 0 1 (- 2) sq_plus_one w0
     = (Return (0.5 * (sq_plus_one 0 + sq_plus_one 1) * dx), logged [0; 1] w0)
  /\ SimpsonMethod_integrate rt0 Numpy 0 1 (- 2) sq_plus_one w0
     = (Return ((sq_plus_one 0 + sq_plus_one 1) * dx / 3), logged [0; 1] w0).
Proof.
  destruct (integrate_negative_partition_count rt0 {| mode := "random" |}
              Numpy 0 1 (- 2) sq_plus_one w0) as [Hrect [Htrap Hsimpson]];
    [lia | by apply converts_small |].
  split; [exact Hrect | split; [exact Htrap | exact (Hsimpson eq_refl)]].
Defined.

(** [negates r1 r2]: both computations return and the values are opposite
    ([==] on floats). *)
Definition negates (r1 r2 : outcome float * world) : Prop :=
  exists v1 v2, r1.1 = Return v1 /\ r2.1 = Return v2 /\ (v1 =? - v2) = true.



End Binary64.

(** * The two embeddings side by side *)

(** The rational number a double stands for, if it is finite. *)
Definition exact_value (x : Binary64.float) : option Q :=
  match FloatOps.Prim2SF x with
  | SpecFloat.S754_zero _ => Some 0%Q
  | SpecFloat.S754_finite s m e =>
      Some (inject_Z (if s then Z.neg m else Z.pos m) * Qpower 2 e)%Q
  | _ => None
  end.

(** [represents x q]: the double [x] is exactly the rational [q]. *)
Definition represents (x : Binary64.float) (q : Q) : Prop :=
  exists q', exact_value x = Some q' /\ (q' == q)%Q.

(** The integrand [x |-> 5 * x + 7], on doubles and on rationals. *)
Definition line_b64 (x : Binary64.float) : Binary64.float :=
  PrimFloat.add (PrimFloat.mul (Binary64.Z2F 5) x) (Binary64.Z2F 7).

Definition line_exact (x : Qc) : Qc := Qc_of_Z 5 * x + Qc_of_Z 7.

(** Shows that the double [r] is not the rational [q]. *)
Ltac not_represented :=
  let q := fresh "q" in
  let Hq := fresh "Hq" in
  let Heq := fresh "Heq" in
  intros [q [Hq Heq]]; vm_compute in Hq; injection Hq as <-;
  vm_compute in Heq; discriminate Heq.

(** C1, as the specification words it, fails on the code: for mode mid,
    [f x = 5*x + 7], [a = 0], [b = 1] and [n = 3] the sum the claim states is
    19/2, a double, and the code returns another double,
    9.4999999999999982. *)
Lemma Rectangle_sum_counterexample :
  (this (Rectangle_spec "mid" 0 1 3 line_exact) == 19 # 2)%Q
  /\ exists r : Binary64.float,
       (Binary64.bind (Binary64.RectangleMethod_init "mid")
          (fun self =>
             Binary64.RectangleMethod_integrate Binary64.rt0 self
               Binary64.Builtin (Binary64.Z2F 0) (Binary64.Z2F 1) 3 line_b64)
          Binary64.w0).1 = Binary64.Return r
       /\ ¬ represents r (this (Rectangle_spec "mid" 0 1 3 line_exact)).
Proof.
  split; [reflexivity|]. eexists. split; [vm_compute; reflexivity|].
  not_represented.
Qed.

(** C2, as the specification words it, fails on the code: for
    [f x = 5*x + 7], [a = 0], [b = 1] and [n = 3] the value the claim states
    is 19/2 and the code returns 9.4999999999999982. *)
Lemma Trapezoidal_formula_counterexample :
  (this (Trapezoidal_spec 0 1 3 line_exact) == 19 # 2)%Q
  /\ exists r : Binary64.float,
       (Binary64.TrapezoidalMethod_integrate Binary64.rt0 Binary64.Builtin
          (Binary64.Z2F 0) (Binary64.Z2F 1) 3 line_b64 Binary64.w0).1
       = Binary64.Return r
       /\ ¬ represents r (this (Trapezoidal_spec 0 1 3 line_exact)).
Proof.
  split; [reflexivity|]. eexists. split; [vm_compute; reflexivity|].
  not_represented.
Qed.

(** C3, as the specification words it, fails on the code: for [f x = x^3],
    [a = 0], [b = 1] and [n = 6] the value the claim states is 1/4 and the
    code returns 0.24999999999999992. *)
Lemma Simpson_formula_counterexample :
  (this (Simpson_spec 0 1 6 cube) == 1 # 4)%Q
  /\ exists r : Binary64.float,
       (Binary64.SimpsonMethod_integrate Binary64.rt0 Binary64.Builtin
          (Binary64.Z2F 0) (Binary64.Z2F 1) 6 Binary64.cube Binary64.w0).1
       = Binary64.Return r
       /\ ¬ represents r (this (Simpson_spec 0 1 6 cube)).
Proof.
  split; [reflexivity|]. eexists. split; [vm_compute; reflexivity|].
  not_represented.
Qed.

(** C6, as the specification words it, fails on the code.  In mode left the
    two calls sample different ends of the subintervals, so the values are
    not opposite even in exact arithmetic: one subinterval of [[0, 1]] and
    [f x = x*x + 1] give 1 and, on the reversed bounds, -2.  In mode mid the
    two calls round differently: with [n = 6] the code returns
    1.3310185185185182 and, on the reversed bounds, -1.3310185185185186. *)
Lemma reversed_bounds_counterexample :
  ¬ negates
      (RectangleMethod_integrate u0 {| mode := "left" |} 0 1 1 sq_plus_one w0)
      (RectangleMethod_integrate u0 {| mode := "left" |} 1 0 1 sq_plus_one w0)
  /\ ¬ Binary64.negates
         (Binary64.RectangleMethod_integrate Binary64.rt0 {| mode := "left" |}
            Binary64.Builtin (Binary64.Z2F 0) (Binary64.Z2F 1) 1
            Binary64.sq_plus_one Binary64.w0)
         (Binary64.RectangleMethod_integrate Binary64.rt0 {| mode := "left" |}
            Binary64.Builtin (Binary64.Z2F 1) (Binary64.Z2F 0) 1
            Binary64.sq_plus_one Binary64.w0)
  /\ ¬ Binary64.negates
         (Binary64.RectangleMethod_integrate Binary64.rt0 {| mode := "mid" |}
            Binary64.Builtin (Binary64.Z2F 0) (Binary64.Z2F 1) 6
            Binary64.sq_plus_one Binary64.w0)
         (Binary64.RectangleMethod_integrate Binary64.rt0 {| mode := "mid" |}
            Binary64.Builtin (Binary64.Z2F 1) (Binary64.Z2F 0) 6
            Binary64.sq_plus_one Binary64.w0).
Proof.
  split; [|split].
  - intros [v [Hrev Hfwd]].
    rewrite RectangleMethod_integrate_run in Hrev, Hfwd
      by (first [lia | repeat constructor]).
    cbn [fst] in Hrev, Hfwd.
    apply (f_equal (fun o => match o with Return x => x | Raise _ => 0 end))
      in Hrev.
    cbv beta iota in Hrev. subst v.
    apply (f_equal (fun o => returned (o, w0))) in Hfwd.
    vm_compute in Hfwd. discriminate Hfwd.
  - intros [v1 [v2 [H1 [H2 Heq]]]].
    vm_compute in H1, H2. injection H1 as <-. injection H2 as <-.
    vm_compute in Heq. discriminate Heq.
  - intros [v1 [v2 [H1 [H2 Heq]]]].
    vm_compute in H1, H2. injection H1 as <-. injection H2 as <-.
    vm_compute in Heq. discriminate Heq.
Qed.

(** C1, amended.  For a mode among left, right and mid, [n >= 1] an int that
    converts to a float and float bounds, constructing
    [RectangleMethod(mode)] and calling [integrate(a, b, n, f)] returns the
    double accumulated from 0.0, for [i = 0 .. n-1] in order, of
    [f(xi) * dx], every operation rounded, where [dx = (b - a) / n],
    [x0 = a + i*dx], [x1 = x0 + dx] and [xi] is [x0], [x1] or
    [(x0 + x1) / 2].  Over exact rational arithmetic that value is the sum
    over [i = 0 .. n-1] of [f(xi) * dx] with [xi] the left endpoint, the
    right endpoint or the midpoint of [[a + i*dx, a + (i+1)*dx]]. *)
Theorem RectangleMethod_integrate_accumulates
    (rt : Binary64.runtime) (k : Binary64.kind)
    (uniform : nat -> Qc -> Qc -> Qc) (m : string) (n : Z)
    (a b : Binary64.float) (f : Binary64.float -> Binary64.float)
    (w : Binary64.world)
    (a' b' : Qc) (f' : Qc -> Qc) (w' : world) :
  m ∈ deterministic -> (1 <= n)%Z -> Binary64.converts k n ->
  (Binary64.bind (Binary64.RectangleMethod_init m)
     (fun self => Binary64.RectangleMethod_integrate rt self k a b n f) w).1
  = Binary64.Return (Binary64.Rectangle_fold m a b n f)
  /\ ((self <- RectangleMethod_init m ;;
       RectangleMethod_integrate uniform self a' b' n f') w').1
     = Return (Rectangle_spec m a' b' n f').
Proof.
  intros Hm Hn Hc. split.
  - by apply Binary64.RectangleMethod_integrate_fold.
  - by apply Rectangle_exact_sum.
Qed.

Lemma RectangleMethod_integrate_accumulates_witness :
  (Binary64.bind (Binary64.RectangleMethod_init "mid")
     (fun self =>
        Binary64.RectangleMethod_integrate Binary64.rt0 self Binary64.Builtin
          (Binary64.Z2F 0) (Binary64.Z2F 1) 3 line_b64) Binary64.w0).1
  = Binary64.Return
      (Binary64.Rectangle_fold "mid" (Binary64.Z2F 0) (Binary64.Z2F 1) 3 line_b64)
  /\ ((self <- RectangleMethod_init "mid" ;;
       RectangleMethod_integrate u0 self 0 1 3 line_exact) w0).1
     = Return (Rectangle_spec "mid" 0 1 3 line_exact).
Proof.
  apply RectangleMethod_integrate_accumulates;
    [repeat constructor | lia | by apply Binary64.converts_small].
Defined.

(** C2, amended.  For [n >= 1] an int that converts to a float and float
    bounds, [TrapezoidalMethod.integrate(a, b, n, f)] returns the double
    [total * dx], where [dx = (b - a) / n] and [total] is accumulated from
    [0.5 * (f(a) + f(b))], for [i = 1 .. n-1] in order, of [f(a + i*dx)],
    every operation rounded.  Over exact rational arithmetic that value is
    [(0.5 * (f(a) + f(b)) + sum over i = 1 .. n-1 of f(a + i*dx)) * dx]. *)
Theorem TrapezoidalMethod_integrate_accumulates
    (rt : Binary64.runtime) (k : Binary64.kind) (n : Z)
    (a b : Binary64.float) (f : Binary64.float -> Binary64.float)
    (w : Binary64.world)
    (a' b' : Qc) (f' : Qc -> Qc) (w' : world) :
  (1 <= n)%Z -> Binary64.converts k n ->
  (Binary64.TrapezoidalMethod_integrate rt k a b n f w).1
  = Binary64.Return (Binary64.Trapezoidal_fold a b n f)
  /\ (TrapezoidalMethod_integrate a' b' n f' w').1
     = Return (Trapezoidal_spec a' b' n f').
Proof.
  intros Hn Hc. split.
  - by rewrite Binary64.TrapezoidalMethod_integrate_run_b64 by (done || lia).
  - by apply Trapezoidal_exact_formula.
Qed.

Lemma TrapezoidalMethod_integrate_accumulates_witness :
  (Binary64.TrapezoidalMethod_integrate Binary64.rt0 Binary64.Builtin
     (Binary64.Z2F 0) (Binary64.Z2F 1) 3 line_b64 Binary64.w0).1
  = Binary64.Return
      (Binary64.Trapezoidal_fold (Binary64.Z2F 0) (Binary64.Z2F 1) 3 line_b64)
  /\ (TrapezoidalMethod_integrate 0 1 3 line_exact w0).1
     = Return (Trapezoidal_spec 0 1 3 line_exact).
Proof.
  apply TrapezoidalMethod_integrate_accumulates;
    [lia | by apply Binary64.converts_small].
Defined.

(** C3, amended.  For even [n >= 2] an int that converts to a float and
    float bounds, [SimpsonMethod.integrate(a, b, n, f)] returns the double
    [total * dx / 3], where [dx = (b - a) / n] and [total] is accumulated
    from [f(a) + f(b)], for [i = 1 .. n-1] in order, of
    [coef(i) * f(a + i*dx)], every operation rounded, with [coef(i)] 4 for
    odd [i] and 2 for even [i].  Over exact rational arithmetic that value
    is [(f(a) + f(b) + sum over i = 1 .. n-1 of coef(i) * f(a + i*dx)) * dx / 3]. *)
Theorem SimpsonMethod_integrate_accumulates
    (rt : Binary64.runtime) (k : Binary64.kind) (n : Z)
    (a b : Binary64.float) (f : Binary64.float -> Binary64.float)
    (w : Binary64.world)
    (a' b' : Qc) (f' : Qc -> Qc) (w' : world) :
  (2 <= n)%Z -> Z.even n = true -> Binary64.converts k n ->
  (Binary64.SimpsonMethod_integrate rt k a b n f w).1
  = Binary64.Return (Binary64.Simpson_fold a b n f)
  /\ (SimpsonMethod_integrate a' b' n f' w').1
     = Return (Simpson_spec a' b' n f').
Proof.
  intros Hn Heven Hc. split.
  - by rewrite Binary64.SimpsonMethod_integrate_run_b64 by (done || lia).
  - by apply Simpson_exact_formula.
Qed.

Lemma SimpsonMethod_integrate_accumulates_witness :
  (Binary64.SimpsonMethod_integrate Binary64.rt0 Binary64.Builtin
     (Binary64.Z2F 0) (Binary64.Z2F 1) 6 Binary64.cube Binary64.w0).1
  = Binary64.Return
      (Binary64.Simpson_fold (Binary64.Z2F 0) (Binary64.Z2F 1) 6 Binary64.cube)
  /\ (SimpsonMethod_integrate 0 1 6 cube w0).1
     = Return (Simpson_spec 0 1 6 cube).
Proof.
  apply SimpsonMethod_integrate_accumulates;
    [lia | reflexivity | by apply Binary64.converts_small].
Defined.
